(** * gnina_tensorflow: masked losses, autoencoder compilation and the
      streaming encode pipeline

    A shallow embedding of
    - [autoencoder/autoencoder_definitions.py] (the masked loss family and
      the compilation step of [AutoEncoderBase.__init__]),
    - [autoencoder/calculate_encodings.py] (types-file indexing, grouping by
      receptor and writing of the encodings),
    - [utilities/gnina_functions.py] ([process_batch]).

    Numbers.  The loss family is embedded twice.  In [Engine] and [Losses]
    tensor entries are exact rationals ([Qc]) and the result of a division
    is a [tfloat], which adds the IEEE special values the engine produces
    when a denominator is zero; rounding, overflow and the sign of zero are
    not modelled there, and these modules carry the statements about which
    operations are applied to what.  In [Float32], [Engine32] and [Losses32]
    entries are IEEE 754 binary32 numbers with round-to-nearest-even
    arithmetic, infinities, not-a-number and signed zeros; these carry the
    statements about the values the code computes. *)

From Stdlib Require Import QArith Qcanon Qcabs Ascii Lqa Qround SpecFloat.
From stdpp Require Import base numbers list strings pretty gmap.

(** ** Numeric engine *)

Module Engine.
Local Open Scope Qc_scope.

(** A scalar produced by the engine. *)
Inductive tfloat : Type :=
  | Fin (q : Qc)
  | PInf
  | NInf
  | NaN.


Definition tf_add (a b : tfloat) : tfloat :=
  match a, b with
  | NaN, _ | _, NaN => NaN
  | Fin x, Fin y => Fin (x + y)
  | PInf, NInf | NInf, PInf => NaN
  | PInf, _ | _, PInf => PInf
  | NInf, _ | _, NInf => NInf
  end.


(** Sign of an infinite product or quotient: [true] is positive. *)
Definition inf_of_sign (pos : bool) : tfloat := if pos then PInf else NInf.


(** [tf.divide] on scalars: [0/0] is not-a-number, [x/0] is an infinity. *)
Definition tf_divide (a b : tfloat) : tfloat :=
  match a, b with
  | NaN, _ | _, NaN => NaN
  | Fin x, Fin y =>
      if decide (y = 0)
      then if decide (x = 0) then NaN else inf_of_sign (bool_decide (0 < x))
      else Fin (x / y)
  | Fin _, (PInf | NInf) => Fin 0
  | (PInf | NInf), (PInf | NInf) => NaN
  | PInf, Fin y => inf_of_sign (negb (bool_decide (y < 0)))
  | NInf, Fin y => inf_of_sign (bool_decide (y < 0))
  end.

(** A tensor, flattened: every reduction below runs over all elements, and
    the elementwise operations act position by position. *)
Abbreviation tensor := (list Qc).

Definition Qc_of_nat (n : nat) : Qc := Qc_of_Z (Z.of_nat n).

(** [tf.cast(_, tf.float32)] of a boolean *)
Definition cast_bool (b : bool) : Qc := if b then 1 else 0.

Definition equal (t : tensor) (c : Qc) : list bool :=
  map (λ x, bool_decide (x = c)) t.
Definition not_equal (t : tensor) (c : Qc) : list bool :=
  map (λ x, negb (bool_decide (x = c))) t.
Definition cast (m : list bool) : tensor := map cast_bool m.

Definition sub (a b : tensor) : tensor := zip_with Qcminus a b.
Definition mul (a b : tensor) : tensor := zip_with Qcmult a b.
(** scalar - tensor, broadcast *)
Definition rsub (c : Qc) (a : tensor) : tensor := map (λ x, c - x) a.
Definition square (a : tensor) : tensor := map (λ x, x * x) a.
Definition abs (a : tensor) : tensor := map Qcabs a.

Definition reduce_sum (a : tensor) : Qc := foldr Qcplus 0 a.
Definition reduce_mean (a : tensor) : tfloat :=
  tf_divide (Fin (reduce_sum a)) (Fin (Qc_of_nat (length a))).

End Engine.

(** ** autoencoder_definitions.py: the masked loss family *)

Module Losses.
Import Engine.
Local Open Scope Qc_scope.

Definition nonzero_mse (target reconstruction : tensor) : tfloat :=
  let mask := cast (not_equal target 0) in
  let masked_difference := mul (sub target reconstruction) mask in
  reduce_mean (square masked_difference).

Definition zero_mse (target reconstruction : tensor) : tfloat :=
  let mask := cast (equal target 0) in
  let masked_difference := mul (sub target reconstruction) mask in
  reduce_mean (square masked_difference).


Definition mae (target reconstruction : tensor) : tfloat :=
  reduce_mean (abs (sub target reconstruction)).

Definition zero_mae (target reconstruction : tensor) : tfloat :=
  let mask := cast (equal target 0) in
  let masked_diff := mul (sub target reconstruction) mask in
  let abs_diff := abs masked_diff in
  tf_divide (Fin (reduce_sum abs_diff)) (Fin (reduce_sum mask)).

Definition nonzero_mae (target reconstruction : tensor) : tfloat :=
  let mask := rsub 1 (cast (equal target 0)) in
  let mask_sum := reduce_sum mask in
  let masked_diff := mul (sub target reconstruction) mask in
  let abs_diff := abs masked_diff in
  tf_divide (Fin (reduce_sum abs_diff)) (Fin mask_sum).

(** The plain mean squared error, [tf.reduce_mean(tf.square(t - r))]. *)
Definition mse (target reconstruction : tensor) : tfloat :=
  reduce_mean (square (sub target reconstruction)).

End Losses.

(** ** autoencoder_definitions.py: compilation of [AutoEncoderBase] *)

Module Autoencoder.

(** The functions [__init__] can hand to the engine as a loss or a metric. *)
Inductive loss_fn : Type :=
  | Fmae
  | Fnonzero_mae
  | Fzero_mae
  | Fzero_mse
  | Fnonzero_mse
  | Fcomposite_mse.

Global Instance loss_fn_eq_dec : EqDecision loss_fn.
Proof. solve_decision. Defined.

(** A tensor of the functional model, by the name of its layer. *)
Definition layer : Type := string.

(** [self.add_loss(f(args))] *)
Record added_loss : Type := AddedLoss {
  al_fn : loss_fn;
  al_args : list layer
}.

(** The keyword arguments of [self.compile]; [c_loss] is [None] when the
    keyword is not passed. *)
Record compile_args : Type := CompileArgs {
  c_optimizer : string * list (string * Qc);
  c_loss : option (gmap layer (option string));
  c_metrics : gmap layer (list loss_fn)
}.

Record keras_model : Type := KerasModel {
  m_inputs : list layer;
  m_outputs : list layer;
  m_losses : list added_loss;
  m_compile : compile_args
}.

(** [AutoEncoderBase.__init__], after [_construct_layers] has returned the
    three tensors [input_image], [encoding], [reconstruction]. *)
Definition init (optimiser : string) (loss : string)
    (opt_args : list (string * Qc)) : keras_model :=
  let input_image := "input_image" in
  let encoding := "encoding" in
  let reconstruction := "reconstruction" in
  let frac := "frac" in
  let inputs :=
    [input_image] ++ (if String.eqb loss "composite_mse" then [frac] else [])
  in
  let metrics : gmap layer (list loss_fn) :=
    {[ reconstruction :=
         [Fmae; Fnonzero_mae; Fzero_mae; Fzero_mse; Fnonzero_mse] ]}
  in
  if String.eqb loss "composite_mse" then
    {| m_inputs := inputs;
       m_outputs := [reconstruction; encoding];
       m_losses := [AddedLoss Fcomposite_mse [input_image; reconstruction; frac]];
       m_compile := {| c_optimizer := (optimiser, opt_args);
                       c_loss := None;
                       c_metrics := metrics |} |}
  else
    {| m_inputs := inputs;
       m_outputs := [reconstruction; encoding];
       m_losses := [];
       m_compile := {| c_optimizer := (optimiser, opt_args);
                       c_loss := Some (<[reconstruction := Some loss]>
                                         {[ encoding := None ]});
                       c_metrics := metrics |} |}.

(** The metrics the compiled model tracks on output [out]. *)
Definition metrics_on (m : keras_model) (out : layer) : list loss_fn :=
  default [] (c_metrics (m_compile m) !! out).

End Autoencoder.

(** ** Python run-time: exceptions and a state-and-exception monad *)

Module Py.

Inductive exn : Type :=
  | KeyError (key : nat)
  | ZeroDivisionError
  | RuntimeError (args : list string).

Inductive result (A : Type) : Type :=
  | Ok (a : A)
  | Raise (e : exn).
Arguments Ok {A} a.
Arguments Raise {A} e.

(** A computation over a mutable world [W]; what was done before an
    exception stays done. *)
Definition M (W A : Type) : Type := W → result A * W.

Global Instance M_ret {W} : MRet (M W) := λ A a w, (Ok a, w).
Global Instance M_bind {W} : MBind (M W) := λ A B k m w,
  match m w with
  | (Ok a, w') => k a w'
  | (Raise e, w') => (Raise e, w')
  end.

Definition raise {W A} (e : exn) : M W A := λ w, (Raise e, w).
Definition lift {W A} (r : result A) : M W A := λ w, (r, w).
Definition modify {W} (f : W → W) : M W unit := λ w, (Ok tt, f w).

(** [for x in xs: s = body(x, s)] *)
Fixpoint for_each {W A St} (xs : list A) (body : A → St → M W St) (s : St)
  : M W St :=
  match xs with
  | [] => mret s
  | x :: xs' => s' ← body x s; for_each xs' body s'
  end.

(** [for i in range(n)] *)
Definition for_range {W St} (n : nat) (body : nat → St → M W St) (s : St)
  : M W St :=
  for_each (seq 0 n) body s.

(** [a // b] on non-negative integers *)
Definition floordiv (a b : nat) : result nat :=
  if decide (b = 0) then Raise ZeroDivisionError else Ok (a `div` b).

(** [a % b] on non-negative integers *)
Definition pymod (a b : nat) : result nat :=
  if decide (b = 0) then Raise ZeroDivisionError else Ok (a `mod` b).

End Py.

(** ** pathlib: pure POSIX paths and a file system *)

Module Pathlib.

(** A path is its tuple of [parts]; an absolute path starts with the part
    ["/"]. *)
Abbreviation Path := (list string).

(** [s.split('/')] *)
Fixpoint split_slash (s : string) : list string :=
  match s with
  | EmptyString => [EmptyString]
  | String a s' =>
      if Ascii.eqb a "/"%char then EmptyString :: split_slash s'
      else match split_slash s' with
           | h :: t => String a h :: t
           | [] => [String a EmptyString]
           end
  end.

Definition is_component (c : string) : bool :=
  negb (String.eqb c "") && negb (String.eqb c ".").

(** [PurePosixPath(s).parts]: empty components and ["."] are dropped
    (a leading double slash is read as a single one). *)
Definition of_string (s : string) : Path :=
  let comps := List.filter is_component (split_slash s) in
  match s with
  | String "/"%char _ => "/"%string :: comps
  | _ => comps
  end.

(** [p / s] *)
Definition joinpath (p : Path) (s : string) : Path :=
  match of_string s with
  | "/"%string :: q => "/"%string :: q
  | q => p ++ q
  end.

(** [p.name]: the final component, empty for the root and for the empty
    path. *)
Definition name (p : Path) : string :=
  match last p with
  | Some n => if String.eqb n "/" then "" else n
  | None => ""
  end.

(** [s.rfind(c)], with [None] for -1 *)
Fixpoint rfind (c : Ascii.ascii) (s : string) : option nat :=
  match s with
  | EmptyString => None
  | String a s' =>
      match rfind c s' with
      | Some i => Some (S i)
      | None => if Ascii.eqb a c then Some 0 else None
      end
  end.

(** [p.stem]: the name without its last suffix. *)
Definition stem (p : Path) : string :=
  let n := name p in
  match rfind "."%char n with
  | Some i =>
      if (0 <? i) && (i <? String.length n - 1) then String.substring 0 i n else n
  | None => n
  end.

(** A string without the separator. *)
Fixpoint no_slash (s : string) : Prop :=
  match s with
  | EmptyString => True
  | String a s' => a ≠ "/"%char ∧ no_slash s'
  end.

(** The path and its ancestors, [p.parents] reversed followed by [p];
    the empty path (the working directory) is not listed. *)
Definition with_parents (p : Path) : list Path :=
  map (λ n, take n p) (seq 1 (length p)).

End Pathlib.

(** ** calculate_encodings.py *)

Module Pipeline.
Import Py Pathlib.

(** One line of a types file, tokenised: [(label, rec, lig)]. *)
Definition record : Type := Z * string * string.

Definition receptor (r : record) : string := r.1.2.

(** *** [get_paths] *)

(** The local variables of [get_paths]. *)
Record gp_state : Type := GpState {
  gp_paths : gmap nat record;
  gp_recs : gset string;
  gp_current_rec : option string
}.

(** The body of [for idx, line in enumerate(f.readlines())], from index
    [idx] on.  Nothing in the loop adds to [recs], and [current_rec] is
    assigned at index 0 only. *)
Fixpoint get_paths_loop (idx : nat) (lines : list record) (st : gp_state)
  : result (gmap nat record) :=
  match lines with
  | [] => Ok (gp_paths st)
  | (label, rec, lig) :: rest =>
      if decide (idx = 0) then
        get_paths_loop (S idx) rest
          {| gp_paths := <[idx := (label, rec, lig)]> (gp_paths st);
             gp_recs := gp_recs st;
             gp_current_rec := Some rec |}
      else if bool_decide (Some rec ≠ gp_current_rec st)
              && bool_decide (rec ∈ gp_recs st) then
        Raise (RuntimeError ["Types file must be grouped by receptor"])
      else
        get_paths_loop (S idx) rest
          {| gp_paths := <[idx := (label, rec, lig)]> (gp_paths st);
             gp_recs := gp_recs st;
             gp_current_rec := gp_current_rec st |}
  end.

Definition get_paths (types_file : list record) : result (gmap nat record) :=
  get_paths_loop 0 types_file
    {| gp_paths := ∅; gp_recs := ∅; gp_current_rec := None |}.

(** [d[k]] on a dict *)
Definition getitem {A} (d : gmap nat A) (k : nat) : result A :=
  match d !! k with
  | Some a => Ok a
  | None => Raise (KeyError k)
  end.

Section Encoder.

(** An encoding vector, one row of [encodings_numpy]. *)
Context {Enc : Type}.

(** [encoder k i]: row [i] of the encodings which the trained autoencoder
    returns for the grids of the [k]-th batch handed out by the example
    provider (counting from 0). *)
Variable encoder : nat → nat → Enc.

(** gnina_embeddings_pb2 messages *)
Record ligand_msg : Type := LigandMsg {
  lig_path : string;
  lig_embedding : Enc;
  lig_label : Z
}.

Record protein : Type := Protein {
  prot_path : string;
  prot_ligand : list ligand_msg
}.

(** The file system: the directories that exist, and the content of each
    file, a serialised [protein] message.  I/O failures are outside the
    model: [mkdir] and [open] succeed. *)
Record FS : Type := MkFS {
  dirs : gset (list string);
  files : gmap (list string) protein
}.

(** Everything [calculate_encodings] can change. *)
Record World : Type := MkWorld {
  fs : FS;
  requested : nat;     (* batches handed out by [e.next_batch] so far *)
  input_tensor : nat;  (* the batch whose grids [input_tensor] holds *)
  forwarded : nat;     (* calls of [gmaker.forward] *)
  predicted : nat;     (* calls of [encoder.predict_on_batch] *)
  written : list (Path * protein)  (* [f.write] calls, oldest first *)
}.

Definition entry : Type := Z * string * Enc.

(** [molgrid.ExampleProvider(...)] and [e.populate]: a fresh provider. *)
Definition populate : M World unit :=
  modify (λ w, MkWorld (fs w) 0 (input_tensor w) (forwarded w) (predicted w)
                       (written w)).

(** [e.next_batch(batch_size)] *)
Definition next_batch (batch_size : nat) : M World nat := λ w,
  (Ok (requested w),
   MkWorld (fs w) (S (requested w)) (input_tensor w) (forwarded w)
           (predicted w) (written w)).

(** [gmaker.forward(batch, input_tensor, 0, random_rotation=rotate)] *)
Definition forward (batch : nat) : M World unit :=
  modify (λ w, MkWorld (fs w) (requested w) batch (S (forwarded w))
                       (predicted w) (written w)).

(** [encoder.predict_on_batch(input_tensor.tonumpy())], second component *)
Definition predict_on_batch : M World (nat → Enc) := λ w,
  (Ok (encoder (input_tensor w)),
   MkWorld (fs w) (requested w) (input_tensor w) (forwarded w)
           (S (predicted w)) (written w)).

(** [p.mkdir(exist_ok=True, parents=True)] *)
Definition mkdir_fs (p : Path) (f : FS) : FS :=
  MkFS (list_to_set (with_parents p) ∪ dirs f) (files f).

Definition mkdir (p : Path) : M World unit :=
  modify (λ w, MkWorld (mkdir_fs p (fs w)) (requested w) (input_tensor w)
                       (forwarded w) (predicted w) (written w)).

(** [with open(p, 'wb') as f: f.write(msg.SerializeToString())] *)
Definition write_fs (p : Path) (msg : protein) (f : FS) : FS :=
  MkFS (dirs f) (<[p := msg]> (files f)).

Definition open_write (p : Path) (msg : protein) : M World unit :=
  modify (λ w, MkWorld (write_fs p msg (fs w)) (requested w) (input_tensor w)
                       (forwarded w) (predicted w) (written w ++ [(p, msg)])).

(** *** [write_encodings_to_disk] *)

Definition build_msg (rec : string) (encodings : list entry) : protein :=
  {| prot_path := rec;
     prot_ligand :=
       map (λ '(label, lig_path, lig_encoding),
              {| lig_path := lig_path;
                 lig_embedding := lig_encoding;
                 lig_label := label |}) encodings |}.

Definition bin_name (rec : string) : string :=
  (stem (of_string rec) +:+ ".bin")%string.

Definition write_encodings_to_disk (rec : string) (encodings : list entry)
    (encodings_dir : Path) : M World unit :=
  let rec_msg := build_msg rec encodings in
  let fname := bin_name rec in
  open_write (joinpath encodings_dir fname) rec_msg.

(** *** [calculate_encodings] *)

(** The body of both [for batch_idx in range(...)] loops (lines 106-112 and
    120-126), on the local variables [(current_rec, encodings)]. *)
Definition consume (paths : gmap nat record) (encodings_numpy : nat → Enc)
    (encodings_dir : Path) (global_idx batch_idx : nat)
    (st : string * list entry) : M World (string * list entry) :=
  let '(current_rec, encodings) := st in
  '(label, rec, lig) ← lift (getitem paths global_idx);
  '(current_rec, encodings) ←
    (if decide (rec ≠ current_rec) then
       write_encodings_to_disk current_rec encodings encodings_dir;;
       mret (rec, [])
     else mret (current_rec, encodings));
  mret (current_rec, encodings ++ [(label, lig, encodings_numpy batch_idx)]).

Definition calculate_encodings (batch_size : nat) (types_file : list record)
    (save_path : string) : M World unit :=
  populate;;
  paths ← lift (get_paths types_file);
  let total_size := size paths in
  iterations ← lift (floordiv total_size batch_size);
  first ← lift (getitem paths 0);
  let current_rec := receptor first in
  let encodings : list entry := [] in
  let encodings_dir := joinpath (of_string save_path) "encodings" in
  mkdir encodings_dir;;
  st ← for_range iterations (λ iteration st,
         batch ← next_batch batch_size;
         forward batch;;
         encodings_numpy ← predict_on_batch;
         for_range batch_size (λ batch_idx st,
           let global_idx := iteration * batch_size + batch_idx in
           consume paths encodings_numpy encodings_dir global_idx batch_idx st)
           st)
         (current_rec, encodings);
  remainder ← lift (pymod total_size batch_size);
  batch ← next_batch batch_size;
  forward batch;;
  encodings_numpy ← predict_on_batch;
  '(current_rec, encodings) ← for_range remainder (λ batch_idx st,
         let global_idx := iterations * batch_size + batch_idx in
         consume paths encodings_numpy encodings_dir global_idx batch_idx st)
         st;
  if decide (length encodings ≠ 0) then
    write_encodings_to_disk current_rec encodings encodings_dir
  else mret tt.

End Encoder.

End Pipeline.

(** ** gnina_functions.py: [process_batch] *)

Module GninaFunctions.
Import Py.

(** The calls [process_batch] makes on its collaborators, in order. *)
Inductive call : Type :=
  | NextBatch (batch_size : nat)
  | Forward (random_rotation : bool)
  | GetLayer (name : string)
  | AutoencoderPredict (n_inputs : nat)
  | ModelPredict
  | ExtractLabel
  | ModelTrain.

(** What [process_batch] returns: predictions, the pair of labels and
    predictions, or the loss of the training step. *)
Inductive returned : Type :=
  | Predictions
  | LabelsAndPredictions
  | Loss.

(** The autoencoder argument: whether [get_layer('frac')] finds a layer
    (otherwise it raises [ValueError], which [process_batch] catches). *)
Record autoencoder_model : Type := { has_frac : bool }.

Definition do (c : call) : M (list call) unit := modify (λ tr, tr ++ [c]).

Definition is_None {A} (o : option A) : bool :=
  match o with None => true | Some _ => false end.

Definition process_batch {L : Type} (batch_size : nat)
    (labels_tensor : option L) (train : bool)
    (autoencoder : option autoencoder_model) : M (list call) returned :=
  if train && is_None labels_tensor then
    raise (RuntimeError ["Labels must be provided for backpropagation";
                         "if train == True"])
  else
    do (NextBatch batch_size);;
    do (Forward train);;
    match autoencoder with
    | Some ae =>
        do (GetLayer "frac");;
        do (AutoencoderPredict (if has_frac ae then 2 else 1))
    | None => mret tt
    end;;
    match labels_tensor with
    | None => do ModelPredict;; mret Predictions
    | Some _ =>
        do ExtractLabel;;
        if train then do ModelTrain;; mret Loss
        else do ModelPredict;; mret LabelsAndPredictions
    end.

(** The class of an exception. *)
Definition exn_class (e : exn) : string :=
  match e with
  | KeyError _ => "KeyError"
  | ZeroDivisionError => "ZeroDivisionError"
  | RuntimeError _ => "RuntimeError"
  end.

(** A call that fetches a batch or runs a model. *)
Definition fetches_or_infers (c : call) : bool :=
  match c with
  | NextBatch _ | AutoencoderPredict _ | ModelPredict | ModelTrain => true
  | _ => false
  end.

End GninaFunctions.

(** ** The loss family, as the specification words it *)

Module LossSpec.
Import Engine.
Local Open Scope Qc_scope.

(** The pairs [(target entry, reconstruction entry)] the nonzero mask
    selects, and those the zero mask selects. *)
Definition nonzero_part (target reconstruction : tensor) : list (Qc * Qc) :=
  filter (λ p, p.1 ≠ 0) (zip target reconstruction).
Definition zero_part (target reconstruction : tensor) : list (Qc * Qc) :=
  filter (λ p, p.1 = 0) (zip target reconstruction).

Definition sq_err (p : Qc * Qc) : Qc := (p.1 - p.2) * (p.1 - p.2).
Definition abs_err (p : Qc * Qc) : Qc := Qcabs (p.1 - p.2).

(** Number of elements of a tensor, and of those a mask selects. *)
Definition count_all (t : tensor) : Qc := Qc_of_nat (length t).
Definition count_nonzero (t : tensor) : nat := length (filter (λ x, x ≠ 0) t).
Definition count_zero (t : tensor) : nat := length (filter (λ x, x = 0) t).

(** A 0/1 mask: 1 where the target entry satisfies [P]. *)
Definition mask_of (P : Qc → Prop) `{!∀ x, Decision (P x)} (t : tensor)
  : tensor :=
  map (λ x, cast_bool (bool_decide (P x))) t.


End LossSpec.

(** ** IEEE 754 binary32 *)

Module Float32.
Local Open Scope Z_scope.

(** IEEE 754 binary32: 24 bits of precision, exponents below 128. *)
Definition prec : Z := 24.
Definition emax : Z := 128.

Abbreviation f32 := spec_float.

Definition f32_add : f32 → f32 → f32 := SFadd prec emax.
Definition f32_sub : f32 → f32 → f32 := SFsub prec emax.
Definition f32_mul : f32 → f32 → f32 := SFmul prec emax.
Definition f32_div : f32 → f32 → f32 := SFdiv prec emax.
Definition f32_abs : f32 → f32 := SFabs.
Definition f32_opp : f32 → f32 := SFopp.
Definition f32_eqb : f32 → f32 → bool := SFeqb.

Definition zero : f32 := S754_zero false.
Definition nan : f32 := S754_nan.
Definition infinity : f32 := S754_infinity false.

(** The float nearest to an integer (ties to even). *)
Definition of_Z (z : Z) : f32 := binary_normalize prec emax z 0 false.
Definition of_nat (n : nat) : f32 := of_Z (Z.of_nat n).
Definition one : f32 := of_Z 1.

Definition valid (x : f32) : Prop := valid_binary prec emax x = true.
Definition is_finite (x : f32) : Prop :=
  match x with
  | S754_zero _ | S754_finite _ _ _ => True
  | _ => False
  end.
Definition sign_clear (x : f32) : Prop :=
  match x with
  | S754_nan => False
  | S754_zero s | S754_infinity s | S754_finite s _ _ => s = false
  end.

(** [x] is a zero, a finite number or an infinity of sign [s]. *)
Definition has_sign (s : bool) (x : f32) : Prop :=
  match x with
  | S754_nan => False
  | S754_zero s' | S754_infinity s' | S754_finite s' _ _ => s' = s
  end.

(** [m * 2^n] on mantissas, and the number of bits of a mantissa. *)
Definition shl (m : positive) (n : Z) : positive :=
  match n with
  | Zpos p => Pos.iter xO m p
  | _ => m
  end.

Definition digits (m : positive) : Z := Zpos (digits2_pos m).

End Float32.

(** ** The numeric engine on float32 tensors *)

Module Engine32.
Import Float32.

(** A float32 tensor, flattened. *)
Abbreviation tensor := (list f32).

(** [tf.cast(_, tf.float32)] of a boolean *)
Definition cast_bool (b : bool) : f32 := if b then one else zero.

Definition equal (t : tensor) (c : f32) : list bool :=
  map (λ x, f32_eqb x c) t.
Definition not_equal (t : tensor) (c : f32) : list bool :=
  map (λ x, negb (f32_eqb x c)) t.
Definition cast (m : list bool) : tensor := map cast_bool m.

Definition sub (a b : tensor) : tensor := zip_with f32_sub a b.
Definition mul (a b : tensor) : tensor := zip_with f32_mul a b.
(** scalar - tensor, broadcast *)
Definition rsub (c : f32) (a : tensor) : tensor := map (λ x, f32_sub c x) a.
Definition square (a : tensor) : tensor := map (λ x, f32_mul x x) a.
Definition abs (a : tensor) : tensor := map f32_abs a.

(** The sum of all elements, accumulated from [+0] in index order; each
    addition rounds. *)
Definition reduce_sum (a : tensor) : f32 := foldl f32_add zero a.
Definition reduce_mean (a : tensor) : f32 :=
  f32_div (reduce_sum a) (of_nat (length a)).

End Engine32.

(** ** The masked losses on float32 tensors *)

Module Losses32.
Import Float32 Engine32.

Definition nonzero_mse (target reconstruction : tensor) : f32 :=
  let mask := cast (not_equal target zero) in
  let masked_difference := mul (sub target reconstruction) mask in
  reduce_mean (square masked_difference).

Definition zero_mse (target reconstruction : tensor) : f32 :=
  let mask := cast (equal target zero) in
  let masked_difference := mul (sub target reconstruction) mask in
  reduce_mean (square masked_difference).

Definition mae (target reconstruction : tensor) : f32 :=
  reduce_mean (abs (sub target reconstruction)).

Definition zero_mae (target reconstruction : tensor) : f32 :=
  let mask := cast (equal target zero) in
  let masked_diff := mul (sub target reconstruction) mask in
  let abs_diff := abs masked_diff in
  f32_div (reduce_sum abs_diff) (reduce_sum mask).

Definition nonzero_mae (target reconstruction : tensor) : f32 :=
  let mask := rsub one (cast (equal target zero)) in
  let mask_sum := reduce_sum mask in
  let masked_diff := mul (sub target reconstruction) mask in
  let abs_diff := abs masked_diff in
  f32_div (reduce_sum abs_diff) mask_sum.

End Losses32.

(** ** The float32 losses, as the specification words them *)

Module LossSpec32.
Import Float32 Engine32.

(** The plain mean squared error, [tf.reduce_mean(tf.square(t - r))]. *)
Definition mse (target reconstruction : tensor) : f32 :=
  reduce_mean (square (sub target reconstruction)).

(** The pairs [(target entry, reconstruction entry)] the zero mask selects,
    and those the nonzero mask selects. *)
Definition zero_part (target reconstruction : tensor) : list (f32 * f32) :=
  filter (λ p, f32_eqb p.1 zero = true) (zip target reconstruction).
Definition nonzero_part (target reconstruction : tensor)
  : list (f32 * f32) :=
  filter (λ p, f32_eqb p.1 zero = false) (zip target reconstruction).

Definition abs_err (p : f32 * f32) : f32 := f32_abs (f32_sub p.1 p.2).
Definition sq_err (p : f32 * f32) : f32 :=
  f32_mul (f32_sub p.1 p.2) (f32_sub p.1 p.2).

(** Number of elements each mask selects. *)
Definition count_zero (t : tensor) : nat :=
  length (filter (λ x, f32_eqb x zero = true) t).
Definition count_nonzero (t : tensor) : nat :=
  length (filter (λ x, f32_eqb x zero = false) t).

(** Every elementwise difference [target - reconstruction] is a finite
    float32 number: no entry is infinite or not-a-number and no
    subtraction overflows. *)
Definition differences_finite (target reconstruction : tensor) : Prop :=
  Forall (λ d, valid d ∧ is_finite d) (sub target reconstruction).

(** A value that is not negative: not-a-number, or a number or infinity
    whose sign bit is clear. *)
Definition not_negative (x : f32) : Prop := x = nan ∨ sign_clear x.

(** Sample values. *)
Definition half : f32 := f32_div one (of_Z 2).
Definition three_eighths : f32 := f32_div (of_Z 3) (of_Z 8).
Definition tiny : f32 := f32_div one (of_Z (2 ^ 100)).

End LossSpec32.

(** ** The pipeline, as the specification words it *)

Module PipelineSpec.
Import Py Pathlib Pipeline.

(** The receptors of a types file are contiguous: no receptor reappears
    after a different receptor has been seen. *)
Definition contiguous (recs : list string) : Prop :=
  ∀ i j k x y,
    i < j < k →
    recs !! i = Some x → recs !! j = Some y → recs !! k = Some x →
    y = x.

(** The same, by recursion: after the leading run of [x] has ended, [x]
    does not occur again. *)
Fixpoint grouped (recs : list string) : bool :=
  match recs with
  | [] => true
  | x :: rest =>
      match rest with
      | [] => true
      | y :: _ => bool_decide (y = x) || negb (bool_decide (x ∈ rest))
      end && grouped rest
  end.

(** The receptors of the maximal runs of equal neighbours, in order. *)
Fixpoint runs (recs : list string) : list string :=
  match recs with
  | [] => []
  | x :: rest =>
      match rest with
      | [] => [x]
      | y :: _ => if decide (y = x) then runs rest else x :: runs rest
      end
  end.

(** The distinct receptors, in the order in which each first appears. *)
Fixpoint first_seen (recs : list string) : list string :=
  match recs with
  | [] => []
  | x :: rest => x :: filter (λ y, y ≠ x) (first_seen rest)
  end.

Section Groups.
Context {Enc : Type}.

(** A sample record with the encoding computed for it. *)
Definition item : Type := record * Enc.

(** A group: a receptor and its entries [(label, ligand, encoding)]. *)
Definition group : Type := string * list (@entry Enc).

Definition group_items (g : group) : list item :=
  map (λ '(label, lig, enc), ((label, g.1, lig), enc)) g.2.

Definition group_records (g : group) : list record :=
  map (λ '(label, lig, enc), (label, g.1, lig)) g.2.

(** The file a flushed group goes to, and its content. *)
Definition to_file (encodings_dir : Path) (g : group) : Path * protein :=
  (encodings_dir ++ [bin_name g.1], build_msg g.1 g.2).

(** One pass of the grouping rule over a result: the groups flushed so far,
    the open group's receptor and its entries. *)
Definition absorb_step (s : list group * string * list (@entry Enc))
    (it : item) : list group * string * list (@entry Enc) :=
  let '(fl, cur, encs) := s in
  let '((label, rec, lig), enc) := it in
  if decide (rec ≠ cur) then (fl ++ [(cur, encs)], rec, [(label, lig, enc)])
  else (fl, cur, encs ++ [(label, lig, enc)]).

Definition absorb (s : list group * string * list (@entry Enc))
    (items : list item) : list group * string * list (@entry Enc) :=
  foldl absorb_step s items.

(** All groups flushed for a list of results, the last group included. *)
Definition flushed_groups (first : string) (items : list item) : list group :=
  let '(fl, cur, encs) := absorb ([], first, []) items in
  fl ++ (if decide (length encs ≠ 0) then [(cur, encs)] else []).

(** The result consumed for each line: line [g] gets row [g mod batch_size]
    of batch [g / batch_size]. *)
Definition items_of (encoder : nat → nat → Enc) (batch_size : nat)
    (lines : list record) : list item :=
  imap (λ g r, (r, encoder (g `div` batch_size) (g `mod` batch_size))) lines.

Definition write_all (ws : list (Path * @protein Enc)) (f : FS) : FS :=
  foldl (λ f pm, write_fs pm.1 pm.2 f) f ws.

(** The world after flushing the groups [gs] into [encodings_dir]. *)
Definition flush_all (encodings_dir : Path) (gs : list group) (w : World)
  : World :=
  MkWorld (write_all (map (to_file encodings_dir) gs) (fs w))
          (requested w) (input_tensor w) (forwarded w) (predicted w)
          (written w ++ map (to_file encodings_dir) gs).

(** The world after [k] more rounds of [next_batch], [forward],
    [predict_on_batch]. *)
Definition after_batches (k : nat) (w : @World Enc) : World :=
  MkWorld (fs w) (k + requested w)
          (match k with 0 => input_tensor w | S k' => k' + requested w end)
          (k + forwarded w) (k + predicted w) (written w).

(** The directory the encodings go to. *)
Definition encodings_dir_of (save_path : string) : Path :=
  of_string save_path ++ ["encodings"%string].

(** The world once the provider is populated and the directory made. *)
Definition start_world (save_path : string) (w : @World Enc) : World :=
  MkWorld (mkdir_fs (encodings_dir_of save_path) (fs w)) 0 (input_tensor w)
          (forwarded w) (predicted w) (written w).

End Groups.

(** *** Concrete inputs *)

(** An encoder whose row [i] of batch [k] is the pair [(k, i)], so that an
    entry shows which row of which batch it was taken from. *)
Definition tag_encoder (k i : nat) : nat * nat := (k, i).

(** Nothing on disk, nothing requested yet. *)
Definition empty_world : @World (nat * nat) :=
  MkWorld (MkFS ∅ ∅) 0 0 0 0 [].

(** A types file with the given receptors: line [i] has label [i mod 2]
    and a ligand path of its own. *)
Definition types_file (recs : list string) : list record :=
  imap (λ i rec, (Z.of_nat (i `mod` 2), rec,
                  ("lig" +:+ pretty i +:+ ".gninatypes")%string)) recs.

(** What a write shows: the file, the receptor, the ligands. *)
Definition summary {Enc} (pm : Path * @protein Enc)
  : Path * string * list string :=
  (pm.1, prot_path pm.2, map lig_path (prot_ligand pm.2)).

End PipelineSpec.

(** ** gnina_functions.py: the helpers around [process_batch] *)

Module Utilities.
Local Open Scope Z_scope.

(** The exceptions these helpers raise. *)
Inductive error : Type :=
  | ValueError (msg : string)
  | IndexError
  | ZeroDivision
  | FileNotFoundError (fname : string)
  | RuntimeError (msg : string).

Inductive outcome (A : Type) : Type :=
  | Returns (a : A)
  | Raises (e : error).
Arguments Returns {A} a.
Arguments Raises {A} e.

Definition and_then {A B} (o : outcome A) (k : A → outcome B) : outcome B :=
  match o with
  | Returns a => k a
  | Raises e => Raises e
  end.

(** The text files on disk, by name: each text as [open(fname, 'r')] gives
    it, with its line ends already translated to the newline character. *)
Definition disk : Type := gmap string string.

(** [open(fname, 'r')] followed by reading the whole file *)
Definition read_file (d : disk) (fname : string) : outcome string :=
  match d !! fname with
  | Some content => Returns content
  | None => Raises (FileNotFoundError fname)
  end.

Definition newline : ascii := "010"%char.

(** [f.readlines()]: the lines of a text, each with its newline; a last
    line without newline is kept as it is. *)
Fixpoint readlines (s : string) : list string :=
  match s with
  | EmptyString => []
  | String c s' =>
      if Ascii.eqb c newline then String c EmptyString :: readlines s'
      else match readlines s' with
           | [] => [String c EmptyString]
           | h :: t => String c h :: t
           end
  end.

(** [s.split(sep)] for a one-character separator, the separator being any
    character that satisfies [sep]. *)
Fixpoint split_by (sep : ascii → bool) (s : string) : list string :=
  match s with
  | EmptyString => [EmptyString]
  | String c s' =>
      if sep c then EmptyString :: split_by sep s'
      else match split_by sep s' with
           | h :: t => String c h :: t
           | [] => [String c EmptyString]
           end
  end.

(** The characters [str.isspace] accepts, among the ASCII ones. *)
Definition is_space (c : ascii) : bool :=
  let n := nat_of_ascii c in
  ((9 <=? n) && (n <=? 13) || (28 <=? n) && (n <=? 32))%nat.

(** [s.split()]: the maximal runs of non-whitespace characters. *)
Definition py_split (s : string) : list string :=
  List.filter (λ w, negb (String.eqb w "")) (split_by is_space s).

(** [s.lstrip()], [s.rstrip()], [s.strip()] *)
Fixpoint lstrip (s : string) : string :=
  match s with
  | EmptyString => EmptyString
  | String c s' => if is_space c then lstrip s' else s
  end.

Fixpoint rstrip (s : string) : string :=
  match s with
  | EmptyString => EmptyString
  | String c s' =>
      match rstrip s' with
      | EmptyString => if is_space c then EmptyString else String c EmptyString
      | r => String c r
      end
  end.

Definition strip (s : string) : string := rstrip (lstrip s).

(** *** [get_dims] *)

(** The channels one map file contributes: 14 without a file, otherwise
    [sum([1 for line in f.readlines() if len(line)])]. *)
Definition map_channels (d : disk) (fname : option string) : outcome nat :=
  match fname with
  | None => Returns 14%nat
  | Some fname =>
      and_then (read_file d fname) (λ content,
        Returns (sum_list
          (map (λ _ : string, 1%nat)
             (List.filter (λ line, negb (String.length line =? 0)%nat)
                (readlines content)))))
  end.

(** [a // b] on numbers, read as exact rationals, and [int] of it *)
Definition floordiv_int (a b : Qc) : outcome Z :=
  if decide (b = 0%Qc) then Raises ZeroDivision
  else Returns (Qfloor (this (a / b)%Qc)).

Definition get_dims (d : disk) (dimension resolution : Qc)
    (ligmap recmap : option string) : outcome (nat * Z * Z * Z) :=
  let channels := 0%nat in
  and_then (map_channels d ligmap) (λ c,
    let channels := (channels + c)%nat in
    and_then (map_channels d recmap) (λ c,
      let channels := (channels + c)%nat in
      and_then (floordiv_int (dimension + 1)%Qc resolution) (λ length,
        Returns (channels, length, length, length)))).

(** *** [format_time] *)

(** ['{:02d}'.format(n)] *)
Definition format_02d (n : Z) : string :=
  let s := pretty n in
  if (String.length s <? 2)%nat then ("0" +:+ s)%string else s.

Definition format_time (t : Qc) : outcome string :=
  if decide (t < 0)%Qc then Raises (ValueError "Time must be positive.")
  else
    let t := Qfloor (this t) in
    let h := t `div` 3600 in
    let m := (t - h * 3600) `div` 60 in
    let s := t - (h * 3600 + m * 60) in
    Returns (format_02d h +:+ ":" +:+ format_02d m +:+ ":" +:+ format_02d s)%string.

(** *** [print_with_overwrite] *)

Definition ERASE : string := String "027"%char "[2K".
Definition UP_ONE : string := String "027"%char "[1A".

(** [s * n] *)
Fixpoint str_repeat (s : string) (n : nat) : string :=
  match n with
  | O => EmptyString
  | S n' => (s +:+ str_repeat s n')%string
  end.

(** [sep.join(l)] *)
Fixpoint str_join (sep : string) (l : list string) : string :=
  match l with
  | [] => EmptyString
  | [x] => x
  | x :: rest => (x +:+ sep +:+ str_join sep rest)%string
  end.

(** What [print_with_overwrite] writes to the console, [end='\r']
    included, together with the final value of its local [lines]. *)
Definition print_with_overwrite (console_width : nat) (s : string)
  : string * string :=
  let lines := split_by (Ascii.eqb newline) s in
  let n_lines := length lines in
  let lines :=
    map (λ line,
           (line +:+ str_repeat " "
                       (Nat.max 0 (console_width - String.length line)))%string)
        lines in
  let lines := str_join (String newline EmptyString) lines in
  ((str_repeat (ERASE +:+ UP_ONE) (n_lines - 1) +:+ s
    +:+ String "013"%char EmptyString)%string,
   lines).

(** *** [get_test_info] *)

(** [(chunks[-2], chunks[-1])] *)
Definition last_two (chunks : list string) : outcome (string * string) :=
  match reverse chunks with
  | l :: sl :: _ => Returns (sl, l)
  | _ => Raises IndexError
  end.

(** The loop over [enumerate(f.readlines())], from index [idx] on. *)
Fixpoint get_test_info_loop (idx : nat) (lines : list string)
    (paths : gmap nat (string * string))
  : outcome (gmap nat (string * string)) :=
  match lines with
  | [] => Returns paths
  | line :: rest =>
      let chunks := py_split (strip line) in
      and_then (last_two chunks) (λ pair,
        get_test_info_loop (S idx) rest (<[idx := pair]> paths))
  end.

Definition get_test_info (d : disk) (test_file : string)
  : outcome (gmap nat (string * string) * nat) :=
  and_then (read_file d test_file) (λ content,
    and_then (get_test_info_loop 0 (readlines content) ∅) (λ paths,
      Returns (paths, size paths))).

End Utilities.

(** ** The helpers, as a user reads them *)

Module UtilitiesSpec.
Import Utilities.

(** The number of lines of a map file, 14 when no file is given. *)
Definition map_lines (d : disk) (fname : option string) : option nat :=
  match fname with
  | None => Some 14
  | Some f => (λ content, length (readlines content)) <$> d !! f
  end.

(** Occurrences of a character in a string. *)
Fixpoint count_char (c : ascii) (s : string) : nat :=
  match s with
  | EmptyString => 0
  | String a s' => (if Ascii.eqb a c then 1 else 0) + count_char c s'
  end.

(** The tokens of every line of a text. *)
Definition tokens_of (content : string) : list (list string) :=
  map py_split (readlines content).

End UtilitiesSpec.

(** ** calculate_encodings.py: [get_paths] on the text of the types file *)

Module TypesFile.
Import Utilities Pipeline.
Local Open Scope Z_scope.

(** [chunks[i]] *)
Definition chunk (chunks : list string) (i : nat) : outcome string :=
  match chunks !! i with
  | Some c => Returns c
  | None => Raises IndexError
  end.

Definition digit_value (c : ascii) : option Z :=
  let n := nat_of_ascii c in
  if ((48 <=? n) && (n <=? 57))%nat then Some (Z.of_nat (n - 48)) else None.

(** The digits of a decimal literal: ASCII digits, with single underscores
    allowed between two digits. *)
Fixpoint int_digits (s : string) (acc : Z) (after_digit : bool) : option Z :=
  match s with
  | EmptyString => if after_digit then Some acc else None
  | String c s' =>
      if Ascii.eqb c "_"%char then
        if after_digit then int_digits s' acc false else None
      else
        match digit_value c with
        | Some v => int_digits s' (10 * acc + v) true
        | None => None
        end
  end.

(** [int(s)] for a token, which has no whitespace: an optional sign and
    the digits. *)
Definition py_int (s : string) : outcome Z :=
  let '(negative, body) :=
    match s with
    | String "-"%char s' => (true, s')
    | String "+"%char s' => (false, s')
    | _ => (false, s)
    end in
  match int_digits body 0 false with
  | Some n => Returns (if negative then - n else n)
  | None =>
      Raises (ValueError
                ("invalid literal for int() with base 10: '" +:+ s +:+ "'"))
  end.

(** The body of [for idx, line in enumerate(f.readlines())], from index
    [idx] on. *)
Fixpoint get_paths_loop (idx : nat) (lines : list string) (st : gp_state)
  : outcome (gmap nat record) :=
  match lines with
  | [] => Returns (gp_paths st)
  | line :: rest =>
      let chunks := py_split (strip line) in
      and_then (chunk chunks 0) (λ c0,
      and_then (py_int c0) (λ label,
      and_then (chunk chunks 1) (λ rec,
      and_then (chunk chunks 2) (λ lig,
        if decide (idx = 0%nat) then
          get_paths_loop (S idx) rest
            {| gp_paths := <[idx := (label, rec, lig)]> (gp_paths st);
               gp_recs := gp_recs st;
               gp_current_rec := Some rec |}
        else if bool_decide (Some rec ≠ gp_current_rec st)
                && bool_decide (rec ∈ gp_recs st) then
          Raises (RuntimeError "Types file must be grouped by receptor")
        else
          get_paths_loop (S idx) rest
            {| gp_paths := <[idx := (label, rec, lig)]> (gp_paths st);
               gp_recs := gp_recs st;
               gp_current_rec := gp_current_rec st |}))))
  end.

Definition get_paths (d : disk) (types_file : string)
  : outcome (gmap nat record) :=
  and_then (read_file d types_file) (λ content,
    get_paths_loop 0 (readlines content)
      {| gp_paths := ∅; gp_recs := ∅; gp_current_rec := None |}).

End TypesFile.

(** ** A line of a types file, as a user reads it *)

Module TypesFileSpec.
Import Utilities Pipeline TypesFile.


End TypesFileSpec.

(** ** The autoencoder as [process_batch] sees it *)

Module ModelSpec.
Import Autoencoder GninaFunctions.

(** [get_layer('frac')] finds a layer exactly when the model was built
    with the input of that name. *)
Definition as_autoencoder (m : keras_model) : autoencoder_model :=
  {| has_frac := bool_decide ("frac"%string ∈ m_inputs m) |}.

(** How often a call satisfying [p] occurs. *)
Definition count_calls (p : call → bool) (calls : list call) : nat :=
  length (List.filter p calls).

Definition is_next_batch (c : call) : bool :=
  match c with NextBatch _ => true | _ => false end.
Definition is_forward (c : call) : bool :=
  match c with Forward _ => true | _ => false end.
Definition is_autoencoder_predict (c : call) : bool :=
  match c with AutoencoderPredict _ => true | _ => false end.
Definition is_extract_label (c : call) : bool :=
  match c with ExtractLabel => true | _ => false end.
Definition is_model_train (c : call) : bool :=
  match c with ModelTrain => true | _ => false end.
Definition is_model_predict (c : call) : bool :=
  match c with ModelPredict => true | _ => false end.

End ModelSpec.

(** ** Groups without their encodings, messages read back *)

Module GroupSpec.
Import Pathlib Pipeline PipelineSpec.

(** An entry, a result and a group with every encoding replaced by its
    image under [f]. *)
Definition map_entry {A B} (f : A → B) (e : @entry A) : @entry B :=
  (e.1.1, e.1.2, f e.2).

Definition map_item {A B} (f : A → B) (it : @item A) : @item B :=
  (it.1, f it.2).

Definition map_group {A B} (f : A → B) (g : @group A) : @group B :=
  (g.1, map (map_entry f) g.2).

(** The receptor, the labels and the ligands of a group. *)
Definition outline {A} (g : @group A) : string * list (Z * string) :=
  (g.1, map (λ e : @entry A, (e.1.1, e.1.2)) g.2).

(** What a written message holds: its records [(label, receptor, ligand)]
    and its encodings, in the order of its ligands. *)
Definition msg_records {A} (m : @protein A) : list record :=
  map (λ l, (lig_label l, prot_path m, lig_path l)) (prot_ligand m).
Definition msg_encodings {A} (m : @protein A) : list A :=
  map lig_embedding (prot_ligand m).

(** The messages written by a run that started with [n] writes logged. *)
Definition new_messages {A} (n : nat) (w : @World A) : list (@protein A) :=
  map snd (drop n (written w)).

End GroupSpec.

(** * Properties of the masked loss family *)

Module LossFacts.
Import Engine Losses LossSpec.
Local Open Scope Qc_scope.

(** Equality of two computed engine scalars. *)
Ltac fin_eq :=
  vm_compute; first [reflexivity | f_equal; apply Qc_is_canon; reflexivity].

Lemma Qc_of_nat_0 n : Qc_of_nat n = 0 ↔ n = 0%nat.
Proof.
  unfold Qc_of_nat. rewrite <- Z2Qc_inj_0, Z2Qc_inj_iff. lia.
Qed.

Lemma Qc_of_nat_S n : Qc_of_nat (S n) = 1 + Qc_of_nat n.
Proof.
  unfold Qc_of_nat. rewrite Nat2Z.inj_succ, <- Z.add_1_l, Z2Qc_inj_add.
  by rewrite Z2Qc_inj_1.
Qed.

Lemma tf_divide_nan_iff (a n : Qc) :
  a = 0 ∨ n ≠ 0 → (tf_divide (Fin a) (Fin n) = NaN ↔ n = 0).
Proof.
  intros Ha. unfold tf_divide.
  destruct (decide (n = 0)) as [->|Hn].
  - destruct Ha as [->|?]; [|done]. by rewrite decide_True.
  - split; [discriminate|done].
Qed.

(** The three masks of the source are [mask_of]. *)
Lemma cast_not_equal t : cast (not_equal t 0) = mask_of (λ x, x ≠ 0) t.
Proof.
  unfold cast, not_equal, mask_of. rewrite map_map. apply map_ext.
  intros x. by rewrite bool_decide_not.
Qed.

Lemma cast_equal t : cast (equal t 0) = mask_of (λ x, x = 0) t.
Proof. unfold cast, equal, mask_of. by rewrite map_map. Qed.

Lemma rsub_cast_equal t :
  rsub 1 (cast (equal t 0)) = mask_of (λ x, x ≠ 0) t.
Proof.
  unfold rsub, cast, equal, mask_of. rewrite !map_map. apply map_ext.
  intros x. rewrite bool_decide_not.
  destruct (bool_decide (x = 0)); simpl; ring.
Qed.

Section Masked.
Context (P : Qc → Prop) `{!∀ x, Decision (P x)}.

(** An elementwise function that keeps an unmasked difference and sends
    a masked one to zero: squaring, absolute value. *)
Variable g : Qc → Qc.
Hypothesis g_keep : ∀ d, g (d * 1) = g d.
Hypothesis g_drop : ∀ d, g (d * 0) = 0.

Lemma masked_sum (t r : tensor) :
  reduce_sum (map g (mul (sub t r) (mask_of P t)))
  = reduce_sum (map (λ p, g (p.1 - p.2)) (filter (λ p, P p.1) (zip t r))).
Proof.
  revert r. induction t as [|x t IH]; intros [|y r]; try reflexivity.
  cbn [zip zip_with]. rewrite filter_cons.
  unfold mul, sub, mask_of, reduce_sum in *.
  cbn [map zip_with foldr fst snd]. rewrite IH.
  destruct (decide (P x)) as [Hx|Hx].
  - rewrite (bool_decide_eq_true_2 _ Hx). cbn [cast_bool map foldr fst snd].
    by rewrite g_keep.
  - rewrite (bool_decide_eq_false_2 _ Hx). cbn [cast_bool].
    rewrite g_drop. ring.
Qed.

Lemma mask_sum (t : tensor) :
  reduce_sum (mask_of P t) = Qc_of_nat (length (filter P t)).
Proof.
  induction t as [|x t IH]; [symmetry; by apply Qc_of_nat_0|].
  rewrite filter_cons. unfold mask_of, reduce_sum in *.
  cbn [map foldr]. rewrite IH.
  destruct (decide (P x)) as [Hx|Hx].
  - rewrite (bool_decide_eq_true_2 _ Hx). cbn [cast_bool length].
    by rewrite Qc_of_nat_S.
  - rewrite (bool_decide_eq_false_2 _ Hx). cbn [cast_bool]. ring.
Qed.

Lemma masked_length (t r : tensor) :
  length t = length r → length (mul (sub t r) (mask_of P t)) = length t.
Proof.
  intros Hlen. unfold mul, sub, mask_of.
  rewrite !length_zip_with, length_map. lia.
Qed.

Lemma masked_sum_empty (t r : tensor) :
  filter P t = [] →
  reduce_sum (map g (mul (sub t r) (mask_of P t))) = 0.
Proof.
  intros Hnil. rewrite masked_sum.
  replace (filter (λ p, P p.1) (zip t r)) with (@nil (Qc * Qc));
    [reflexivity|].
  symmetry. revert r. induction t as [|x t IH]; intros [|y r]; try done.
  rewrite filter_cons in Hnil. cbn [zip zip_with]. rewrite filter_cons.
  cbn [fst]. destruct (decide (P x)); [done|]. by apply IH.
Qed.
End Masked.

Lemma sq_keep d : d * 1 * (d * 1) = d * d.
Proof. ring. Qed.
Lemma sq_drop d : d * 0 * (d * 0) = 0.
Proof. ring. Qed.
Lemma abs_keep d : Qcabs (d * 1) = Qcabs d.
Proof. f_equal. ring. Qed.
Lemma abs_drop d : Qcabs (d * 0) = 0.
Proof. replace (d * 0) with 0 by ring. apply Qcabs_pos, Qcle_refl. Qed.

Lemma sum_split (P : Qc → Prop) `{!∀ x, Decision (P x)} (f : Qc * Qc → Qc)
    (l : list (Qc * Qc)) :
  reduce_sum (map f (filter (λ p, ¬ P p.1) l))
  + reduce_sum (map f (filter (λ p, P p.1) l))
  = reduce_sum (map f l).
Proof.
  induction l as [|p l IH]; [reflexivity|].
  rewrite !filter_cons. unfold reduce_sum in *.
  destruct (decide (P p.1)) as [Hp|Hp].
  - rewrite decide_False by tauto. cbn [map foldr]. rewrite <- IH. ring.
  - rewrite decide_True by tauto. cbn [map foldr]. rewrite <- IH. ring.
Qed.

Lemma mse_full (t r : tensor) :
  length t = length r →
  mse t r = tf_divide (Fin (reduce_sum (map sq_err (zip t r)))) (Fin (count_all t)).
Proof.
  intros H. unfold mse, reduce_mean, count_all, square, sub.
  rewrite length_map, length_zip_with, <- H, Nat.min_id.
  do 3 f_equal. clear H. revert r.
  induction t as [|x t IH]; intros [|y r]; try reflexivity.
  cbn [zip zip_with map]. unfold reduce_sum in *. cbn [foldr].
  by rewrite IH.
Qed.

(** Both masked squared errors as a sum over the selected pairs divided by
    the number of all elements. *)
Lemma masked_mse_formula (target reconstruction : tensor) :
  length target = length reconstruction →
  nonzero_mse target reconstruction
  = tf_divide (Fin (reduce_sum (map sq_err (nonzero_part target reconstruction))))
              (Fin (count_all target))
  ∧ zero_mse target reconstruction
  = tf_divide (Fin (reduce_sum (map sq_err (zero_part target reconstruction))))
              (Fin (count_all target)).
Proof.
  intros Hshape. unfold nonzero_mse, zero_mse, reduce_mean, square, count_all.
  rewrite cast_not_equal, cast_equal, !length_map.
  rewrite !masked_length by done.
  rewrite !(masked_sum _ (λ d, d * d) sq_keep sq_drop).
  done.
Qed.



(** The denominators of the two conventions differ: on target [2; 0; 3] and
    reconstruction [1; 1; 1] the non-zero squared errors sum to 5, and
    [nonzero_mse] is 5/3, not 5/2. *)
Example nonzero_mse_example :
  nonzero_mse [Q2Qc 2; 0; Q2Qc 3] [1; 1; 1] = Fin (Q2Qc (5 # 3)).
Proof. fin_eq. Qed.

(** In exact arithmetic, that is without rounding, [nonzero_mse] plus
    [zero_mse] is the plain mean squared error of same-shape tensors. *)
Lemma masked_mse_sum_exact (target reconstruction : tensor) :
  length target = length reconstruction →
  tf_add (nonzero_mse target reconstruction) (zero_mse target reconstruction)
  = mse target reconstruction.
Proof.
  intros Hshape.
  destruct (masked_mse_formula _ _ Hshape) as [-> ->].
  rewrite mse_full by done.
  unfold nonzero_part, zero_part.
  rewrite <- (sum_split (λ x, x = 0) sq_err (zip target reconstruction)).
  set (a := reduce_sum (map sq_err (filter (λ p, p.1 ≠ 0) _))).
  set (b := reduce_sum (map sq_err (filter (λ p, p.1 = 0) _))).
  unfold tf_divide, count_all.
  destruct (decide (Qc_of_nat (length target) = 0)) as [E|E].
  - apply Qc_of_nat_0, nil_length_inv in E. subst target.
    subst a b. cbn. rewrite !decide_True by (by apply Qc_is_canon).
    reflexivity.
  - cbn. f_equal. by field.
Qed.



End LossFacts.

(** * Binary32 arithmetic *)

Module Float32Facts.
Import Float32.
Local Open Scope Z_scope.

Lemma iter_pos_nat {A} (f : A → A) p x :
  SpecFloat.iter_pos f p x = Nat.iter (Pos.to_nat p) f x.
Proof.
  revert x. induction p as [p IH|p IH|]; intros x; cbn [SpecFloat.iter_pos].
  - rewrite !IH, Pos2Nat.inj_xI.
    replace (S (2 * Pos.to_nat p)) with (Pos.to_nat p + S (Pos.to_nat p))%nat
      by lia.
    by rewrite Nat.iter_add, Nat.iter_succ_r.
  - rewrite !IH, Pos2Nat.inj_xO.
    replace (2 * Pos.to_nat p)%nat with (Pos.to_nat p + Pos.to_nat p)%nat
      by lia.
    by rewrite Nat.iter_add.
  - reflexivity.
Qed.


Lemma Zpos_shl m n : 0 ≤ n → Zpos (shl m n) = Zpos m * 2 ^ n.
Proof.
  intros Hn. destruct n as [|p|p]; [cbn; lia| |lia]. cbn [shl]. clear Hn.
  induction p as [|p IH] using Pos.peano_ind.
  - cbn. lia.
  - rewrite Pos.iter_succ, Pos2Z.inj_succ, Z.pow_succ_r by lia.
    rewrite Pos2Z.inj_xO, IH. lia.
Qed.


Lemma digits_shl m n : 0 ≤ n → digits (shl m n) = digits m + n.
Proof.
  intros Hn. destruct n as [|p|p]; [cbn; lia| |lia]. cbn [shl]. unfold digits.
  clear Hn. induction p as [|p IH] using Pos.peano_ind.
  - cbn. lia.
  - rewrite Pos.iter_succ. cbn [digits2_pos]. rewrite Pos2Z.inj_succ, IH. lia.
Qed.




(** Shifting right what was shifted left loses nothing. *)
Lemma shr_exact m q :
  0 < q →
  SpecFloat.iter_pos shr_1 (Z.to_pos q)
    {| shr_m := Zpos (shl m q); shr_r := false; shr_s := false |}
  = {| shr_m := Zpos m; shr_r := false; shr_s := false |}.
Proof.
  intros Hq. destruct q as [|p|p]; [lia| |lia]. cbn [Z.to_pos shl].
  rewrite iter_pos_nat, Pos2Nat.inj_iter.
  induction (Pos.to_nat p) as [|n IH]; [reflexivity|].
  rewrite Nat.iter_succ_r. cbn [Nat.iter shr_1 orb]. exact IH.
Qed.


(** A mantissa in canonical position, shifted left by [q] with the exponent
    lowered accordingly, rounds back to itself. *)
Lemma binary_round_aux_shifted s m e q :
  bounded prec emax m e = true → 0 ≤ q →
  binary_round_aux prec emax s (Zpos (shl m q)) (e - q) loc_Exact
  = S754_finite s m e.
Proof.
  unfold bounded, canonical_mantissa. intros Hb Hq.
  apply andb_prop in Hb as [Hc He].
  apply Z.eqb_eq in Hc. apply Z.leb_le in He.
  unfold binary_round_aux.
  assert (shr_fexp prec emax (Zpos (shl m q)) (e - q) loc_Exact
          = ({| shr_m := Zpos m; shr_r := false; shr_s := false |}, e)) as ->.
  { unfold shr_fexp. cbn [Zdigits2 shr_record_of_loc].
    change (Zpos (digits2_pos (shl m q))) with (digits (shl m q)).
    rewrite digits_shl by done.
    replace (digits m + q + (e - q)) with (Zpos (digits2_pos m) + e)
      by (unfold digits; lia).
    rewrite Hc. replace (e - (e - q)) with q by lia.
    unfold shr. destruct q as [|p|p]; [|..].
    - cbn [shl]. f_equal. lia.
    - rewrite <- (shr_exact m (Zpos p)) by lia. cbn [Z.to_pos]. f_equal. lia.
    - lia. }
  cbn [shr_m loc_of_shr_record round_nearest_even].
  assert (shr_fexp prec emax (Zpos m) e loc_Exact
          = ({| shr_m := Zpos m; shr_r := false; shr_s := false |}, e)) as ->.
  { unfold shr_fexp. cbn [Zdigits2 shr_record_of_loc]. rewrite Hc.
    by rewrite Z.sub_diag. }
  cbn [shr_m]. apply Z.leb_le in He. by rewrite He.
Qed.






Lemma one_eq : one = S754_finite false (shl 1 23) (-23).
Proof. reflexivity. Qed.


Lemma of_nat_0 : of_nat 0 = zero.
Proof. reflexivity. Qed.




(** Multiplying by one changes nothing; by zero, gives a zero. *)
Lemma mul_one x : valid x → is_finite x → f32_mul x one = x.
Proof.
  intros Hv Hf. destruct x as [s|s| |s m e]; try done.
  - by destruct s.
  - rewrite one_eq. unfold f32_mul, SFmul. rewrite xorb_false_r.
    replace (m * shl 1 23)%positive with (shl m 23).
    + change (e + -23) with (e - 23). by apply binary_round_aux_shifted.
    + apply Pos2Z.inj. rewrite Pos2Z.inj_mul, !Zpos_shl by lia. lia.
Qed.

Lemma mul_zero x : is_finite x → ∃ s, f32_mul x zero = S754_zero s.
Proof. destruct x; try done; cbn; eauto. Qed.

Lemma sub_diag x : is_finite x → f32_sub x x = zero.
Proof.
  destruct x as [[]|s| |s m e]; try done. intros _.
  unfold f32_sub, SFsub. by rewrite Z.sub_diag.
Qed.

(** ** Signs and not-a-number *)

Lemma shr_1_nonneg r : 0 ≤ shr_m r → 0 ≤ shr_m (shr_1 r).
Proof.
  destruct r as [m rr ss]. destruct m as [|[p|p|]|[p|p|]]; cbn; lia.
Qed.

Lemma shr_nonneg r e n : 0 ≤ shr_m r → 0 ≤ shr_m (shr r e n).1.
Proof.
  intros Hr. unfold shr. destruct n as [|p|p]; cbn [fst]; try done.
  rewrite iter_pos_nat. induction (Pos.to_nat p) as [|k IH]; [done|].
  cbn [Nat.iter]. by apply shr_1_nonneg.
Qed.

Lemma shr_fexp_nonneg m e l :
  0 ≤ m → 0 ≤ shr_m (shr_fexp prec emax m e l).1.
Proof.
  intros Hm. unfold shr_fexp. apply shr_nonneg.
  by destruct l as [|[]].
Qed.

Lemma round_nearest_even_nonneg m l : 0 ≤ m → 0 ≤ round_nearest_even m l.
Proof.
  intros Hm. destruct l as [|[]]; cbn; try done; [|lia].
  destruct (Z.even m); lia.
Qed.

(** Rounding a non-negative mantissa keeps the sign and never gives
    not-a-number. *)
Lemma binary_round_aux_sign s m e l :
  0 ≤ m → has_sign s (binary_round_aux prec emax s m e l).
Proof.
  intros Hm. unfold binary_round_aux.
  pose proof (shr_fexp_nonneg m e l Hm) as H1.
  destruct (shr_fexp prec emax m e l) as [r1 e1]. cbn [fst] in H1.
  pose proof (shr_fexp_nonneg _ e1 loc_Exact
                (round_nearest_even_nonneg _ (loc_of_shr_record r1) H1)) as H2.
  destruct (shr_fexp prec emax _ e1 loc_Exact) as [r2 e2]. cbn [fst] in H2.
  destruct (shr_m r2) as [|p|p]; [done| |lia].
  by destruct (e2 <=? emax - prec).
Qed.

Lemma binary_round_sign s m e : has_sign s (binary_round prec emax s m e).
Proof.
  unfold binary_round. destruct (shl_align _ _ _) as [mz ez].
  by apply binary_round_aux_sign.
Qed.

Lemma of_nat_sign n : sign_clear (of_nat n).
Proof.
  unfold of_nat, of_Z, binary_normalize.
  destruct (Z.of_nat n) as [|k|k] eqn:E; [done| |lia].
  pose proof (binary_round_sign false k 0) as H.
  by destruct (binary_round prec emax false k 0).
Qed.

Lemma has_sign_false x : has_sign false x ↔ sign_clear x.
Proof. by destruct x. Qed.

Lemma add_sign_clear x y :
  sign_clear x → sign_clear y → sign_clear (f32_add x y).
Proof.
  destruct x as [sx|sx| |sx mx ex], y as [sy|sy| |sy my ey]; cbn;
    try done; try (by intros -> ->).
  intros -> ->. apply has_sign_false.
  change (sign_clear ?x) with (has_sign false x).
  cbn [cond_Zopp]. unfold binary_normalize.
  match goal with |- context [Z.pos ?a + Z.pos ?b] =>
    change (Z.pos a + Z.pos b) with (Z.pos (a + b)) end.
  apply binary_round_sign.
Qed.

Lemma mul_sign sx mx ex sy my ey :
  has_sign (xorb sx sy)
    (f32_mul (S754_finite sx mx ex) (S754_finite sy my ey)).
Proof. unfold f32_mul, SFmul. by apply binary_round_aux_sign. Qed.

Lemma square_sign x : x = nan ∨ sign_clear (f32_mul x x).
Proof.
  destruct x as [s|s| |s m e]; [right|right|by left|right].
  - cbn. by destruct s.
  - cbn. by destruct s.
  - pose proof (mul_sign s m e s m e) as H. rewrite xorb_nilpotent in H.
    by apply has_sign_false.
Qed.

Lemma div_sign x y :
  sign_clear x → sign_clear y → f32_div x y = nan ∨ sign_clear (f32_div x y).
Proof.
  destruct x as [sx|sx| |sx mx ex], y as [sy|sy| |sy my ey]; cbn;
    try done; try (by left); try (by intros -> ->; right).
  intros -> ->. right. apply has_sign_false.
  destruct (SFdiv_core_binary prec emax (Z.pos mx) ex (Z.pos my) ey)
    as [[mz ez] lz] eqn:E.
  apply binary_round_aux_sign.
  unfold SFdiv_core_binary in E.
  set (m' := match _ with Z0 => Z.pos mx | Z.pos _ => _ | Z.neg _ => 0 end) in E.
  assert (0 ≤ m') as Hm'.
  { subst m'. destruct (ex - ey - _); [lia| |lia].
    apply Z.shiftl_nonneg. lia. }
  pose proof (Z_div_mod m' (Z.pos my) ltac:(lia)) as Hdm.
  destruct (Z.div_eucl m' (Z.pos my)) as [q r]. injection E as <- _ _.
  nia.
Qed.

End Float32Facts.

(** * The masked losses in float32 *)

Module LossFacts32.
Import Float32 Engine32 Losses32 LossSpec32 Float32Facts.
Local Open Scope Z_scope.

(** ** The masks *)

Lemma cast_equal32 t :
  cast (equal t zero) = map (λ x, cast_bool (f32_eqb x zero)) t.
Proof. unfold cast, equal. by rewrite map_map. Qed.

Lemma cast_not_equal32 t :
  cast (not_equal t zero) = map (λ x, cast_bool (negb (f32_eqb x zero))) t.
Proof. unfold cast, not_equal. by rewrite map_map. Qed.



Lemma nonzero_part_negb t r :
  nonzero_part t r
  = filter (λ p, negb (f32_eqb p.1 zero) = true) (zip t r).
Proof.
  unfold nonzero_part. apply list_filter_iff.
  intros x. by destruct (f32_eqb x.1 zero).
Qed.

(** ** Sums *)

Lemma add_zero_r x : sign_clear x → f32_add x zero = x.
Proof. by destruct x as [[]|[]| |s m e]. Qed.

Lemma foldl_sign_clear (l : tensor) acc :
  sign_clear acc → Forall sign_clear l → sign_clear (foldl f32_add acc l).
Proof.
  intros Hacc Hl. revert acc Hacc.
  induction Hl as [|x l Hx _ IH]; intros acc Hacc; [done|].
  cbn [foldl]. apply IH. by apply add_sign_clear.
Qed.

Lemma add_nan_l x : f32_add nan x = nan.
Proof. reflexivity. Qed.
Lemma add_nan_r x : f32_add x nan = nan.
Proof. by destruct x. Qed.

Lemma foldl_nan (l : tensor) : foldl f32_add nan l = nan.
Proof. induction l as [|x l IH]; [done|]. cbn [foldl]. by rewrite add_nan_l. Qed.

(** A sum of numbers that are not negative, or not-a-number, is one. *)
Lemma foldl_clear_or_nan (l : tensor) acc :
  acc = nan ∨ sign_clear acc →
  Forall (λ x, x = nan ∨ sign_clear x) l →
  foldl f32_add acc l = nan ∨ sign_clear (foldl f32_add acc l).
Proof.
  intros Hacc Hl. revert acc Hacc.
  induction Hl as [|x l Hx _ IH]; intros acc Hacc; [done|].
  cbn [foldl]. apply IH.
  destruct Hacc as [->|Hacc]; [by left|].
  destruct Hx as [->|Hx]; [left; apply add_nan_r|].
  right. by apply add_sign_clear.
Qed.

Section Masked.
Variable sel : f32 → bool.
Variable g : f32 → f32.
Hypothesis g_keep : ∀ d, valid d → is_finite d → g (f32_mul d one) = g d.
Hypothesis g_drop : ∀ d, is_finite d → g (f32_mul d zero) = zero.
Hypothesis g_clear : ∀ d, is_finite d → sign_clear (g d).

(** The entries the mask drops add [+0]: the sum runs over the selected
    pairs only. *)
Lemma masked_sum32 (t r : tensor) acc :
  sign_clear acc → differences_finite t r →
  foldl f32_add acc (map g (mul (sub t r) (map (λ x, cast_bool (sel x)) t)))
  = foldl f32_add acc
      (map (λ p, g (f32_sub p.1 p.2))
         (filter (λ p, sel p.1 = true) (zip t r))).
Proof.
  unfold differences_finite, mul, sub.
  revert r acc. induction t as [|x t IH]; intros [|y r] acc Hacc Hd;
    try reflexivity.
  cbn [zip zip_with map] in *. apply Forall_cons in Hd as [[Hv Hf] Hd].
  rewrite filter_cons. cbn [fst snd foldl].
  destruct (sel x) eqn:Hx; cbn [cast_bool].
  - rewrite decide_True by done. cbn [map foldl fst snd].
    rewrite g_keep by done. apply IH; [|done].
    apply add_sign_clear; [done|by apply g_clear].
  - rewrite decide_False by done.
    rewrite g_drop by done. rewrite add_zero_r by done. by apply IH.
Qed.




End Masked.


Lemma sq_keep32 d :
  valid d → is_finite d →
  f32_mul (f32_mul d one) (f32_mul d one) = f32_mul d d.
Proof. intros Hv Hf. by rewrite mul_one. Qed.
Lemma sq_drop32 d :
  is_finite d → f32_mul (f32_mul d zero) (f32_mul d zero) = zero.
Proof. intros Hf. destruct (mul_zero d Hf) as [s ->]. by destruct s. Qed.
Lemma sq_clear d : is_finite d → sign_clear (f32_mul d d).
Proof. intros Hf. destruct (square_sign d) as [->|H]; done. Qed.

Lemma div_nan_l y : f32_div nan y = nan.
Proof. reflexivity. Qed.


Lemma count_lt_length (P : f32 → Prop) `{!∀ x, Decision (P x)} (t : tensor) n :
  Z.of_nat (length t) < n → Z.of_nat (length (filter P t)) < n.
Proof. pose proof (length_filter P t). lia. Qed.

(** ** The formulas *)





(** ** Not-a-number *)







(** ** The squared errors *)

Lemma masked_length32 (t r : tensor) (mask : tensor) :
  length t = length r → length mask = length t →
  length (square (mul (sub t r) mask)) = length t.
Proof.
  intros Hr Hm. unfold square, mul, sub.
  rewrite length_map, !length_zip_with. lia.
Qed.

Lemma zero_mse_formula t r :
  length t = length r → differences_finite t r →
  zero_mse t r
  = f32_div (reduce_sum (map sq_err (zero_part t r))) (of_nat (length t)).
Proof.
  intros Hlen Hd. unfold zero_mse, reduce_mean.
  rewrite masked_length32
    by (try done; unfold cast, equal, not_equal; by rewrite !length_map).
  unfold reduce_sum, square. rewrite cast_equal32.
  by rewrite (masked_sum32 (λ x, f32_eqb x zero) (λ d, f32_mul d d)
                sq_keep32 sq_drop32 sq_clear).
Qed.

Lemma nonzero_mse_formula t r :
  length t = length r → differences_finite t r →
  nonzero_mse t r
  = f32_div (reduce_sum (map sq_err (nonzero_part t r))) (of_nat (length t)).
Proof.
  intros Hlen Hd. unfold nonzero_mse, reduce_mean.
  rewrite masked_length32
    by (try done; unfold cast, equal, not_equal; by rewrite !length_map).
  unfold reduce_sum, square. rewrite cast_not_equal32, nonzero_part_negb.
  by rewrite (masked_sum32 (λ x, negb (f32_eqb x zero)) (λ d, f32_mul d d)
                sq_keep32 sq_drop32 sq_clear).
Qed.

Lemma mse_formula t r :
  length t = length r →
  mse t r = f32_div (reduce_sum (map sq_err (zip t r))) (of_nat (length t)).
Proof.
  intros Hlen. unfold mse, reduce_mean, square, sub.
  rewrite length_map, length_zip_with, <- Hlen, Nat.min_id.
  do 2 f_equal. clear Hlen. revert r.
  induction t as [|x t IH]; intros [|y r]; try reflexivity.
  cbn [zip zip_with map]. by rewrite IH.
Qed.

Lemma add_zero_l x : sign_clear x → f32_add zero x = x.
Proof. by destruct x as [[]|[]| |s m e]. Qed.

(** At each position one of the two masked squares is the squared
    difference and the other is [+0]. *)
Lemma squares_partition t r :
  differences_finite t r →
  zip_with f32_add (square (mul (sub t r) (cast (not_equal t zero))))
                   (square (mul (sub t r) (cast (equal t zero))))
  = square (sub t r).
Proof.
  unfold differences_finite, square, mul, sub, cast, not_equal, equal.
  revert r. induction t as [|x t IH]; intros [|y r] Hd; try reflexivity.
  cbn [zip_with map] in *. apply Forall_cons in Hd as [[Hv Hf] Hd].
  rewrite IH by done. f_equal.
  destruct (f32_eqb x zero); cbn [negb cast_bool].
  - rewrite sq_drop32, sq_keep32 by done. by apply add_zero_l, sq_clear.
  - rewrite sq_drop32, sq_keep32 by done. by apply add_zero_r, sq_clear.
Qed.


(** ** The masked absolute errors *)




(** ** The masked squared errors and the plain one *)

(** C10. For same-shape float32 tensors whose elementwise differences are
    finite, the two masks partition the elements: at each position the
    squared masked differences of [nonzero_mse] and [zero_mse] add up
    exactly to the squared difference (one is the squared difference, the
    other [+0]); and [nonzero_mse], [zero_mse] and the plain mean squared
    error are the sums of the squared differences over the entries with
    non-zero target, with zero target, and over all entries, each divided by
    the number of all elements. *)
Theorem masked_mse_partition (target reconstruction : tensor) :
  length target = length reconstruction →
  differences_finite target reconstruction →
  zip_with f32_add
    (square (mul (sub target reconstruction) (cast (not_equal target zero))))
    (square (mul (sub target reconstruction) (cast (equal target zero))))
  = square (sub target reconstruction)
  ∧ nonzero_mse target reconstruction
    = f32_div (reduce_sum (map sq_err (nonzero_part target reconstruction)))
        (of_nat (length target))
  ∧ zero_mse target reconstruction
    = f32_div (reduce_sum (map sq_err (zero_part target reconstruction)))
        (of_nat (length target))
  ∧ mse target reconstruction
    = f32_div (reduce_sum (map sq_err (zip target reconstruction)))
        (of_nat (length target)).
Proof.
  intros Hlen Hd. split_and!.
  - by apply squares_partition.
  - by apply nonzero_mse_formula.
  - by apply zero_mse_formula.
  - by apply mse_formula.
Qed.

Lemma masked_mse_partition_witness :
  let t : tensor := [zero; zero; one] in
  let r : tensor := [half; three_eighths; half] in
  length t = length r
  ∧ differences_finite t r
  ∧ zip_with f32_add
      (square (mul (sub t r) (cast (not_equal t zero))))
      (square (mul (sub t r) (cast (equal t zero))))
    = square (sub t r)
  ∧ nonzero_mse t r
    = f32_div (reduce_sum (map sq_err (nonzero_part t r))) (of_nat (length t)).
Proof.
  intros t r.
  assert (length t = length r) as Hlen by reflexivity.
  assert (differences_finite t r) as Hd
    by (repeat constructor; vm_compute; done).
  destruct (masked_mse_partition t r Hlen Hd) as (Hp & Hnz & _ & _).
  by split_and!.
Defined.

(** C10 on the code.  The sum of the two computed errors is not always the
    computed mean squared error: the sums are exact here (1/4, 25/64 and
    41/64), the three quotients by 3 and the final addition are rounded,
    and the results differ in the last bit. *)
Theorem masked_mse_sum_is_not_mse :
  let t : tensor := [zero; zero; one] in
  let r : tensor := [half; three_eighths; half] in
  length t = length r
  ∧ differences_finite t r
  ∧ f32_add (nonzero_mse t r) (zero_mse t r)
    = S754_finite false 14330538 (-26)
  ∧ mse t r = S754_finite false 14330539 (-26)
  ∧ f32_add (nonzero_mse t r) (zero_mse t r) ≠ mse t r.
Proof.
  intros t r. split_and!; try (vm_compute; reflexivity).
  - repeat constructor; vm_compute; done.
  - vm_compute. discriminate.
Qed.

(** ** What the values can be *)

Lemma abs_not_negative (l : tensor) :
  Forall (λ x, x = nan ∨ sign_clear x) (abs l).
Proof.
  unfold abs. apply Forall_forall. intros v Hv.
  apply list_elem_of_fmap in Hv as (x & -> & _).
  destruct x; cbn; auto.
Qed.

Lemma square_not_negative (l : tensor) :
  Forall (λ x, x = nan ∨ sign_clear x) (square l).
Proof.
  unfold square. apply Forall_forall. intros v Hv.
  apply list_elem_of_fmap in Hv as (x & -> & _).
  destruct (square_sign x) as [->|H]; auto.
Qed.

Lemma reduce_sum_not_negative (l : tensor) :
  Forall (λ x, x = nan ∨ sign_clear x) l → not_negative (reduce_sum l).
Proof. intros Hl. apply foldl_clear_or_nan; [by right|done]. Qed.

Lemma mask_sum_clear {A} (f : A → f32) (l : list A) :
  (∀ a, sign_clear (f a)) → sign_clear (reduce_sum (map f l)).
Proof.
  intros Hf. apply foldl_sign_clear; [done|].
  apply Forall_forall. intros v Hv.
  apply list_elem_of_fmap in Hv as (b & -> & _). apply Hf.
Qed.

Lemma div_not_negative x y :
  not_negative x → sign_clear y → not_negative (f32_div x y).
Proof.
  intros [->|Hx] Hy; [by left|]. by apply div_sign.
Qed.

(** X9. No loss of the family is ever negative in float32: for all tensors,
    whatever their entries, each of [nonzero_mse], [zero_mse], [mae],
    [nonzero_mae] and [zero_mae] is not-a-number or has a clear sign bit
    (a number at least zero, or plus infinity; never minus zero). *)
Theorem losses_never_negative (target reconstruction : tensor) :
  not_negative (nonzero_mse target reconstruction)
  ∧ not_negative (zero_mse target reconstruction)
  ∧ not_negative (mae target reconstruction)
  ∧ not_negative (nonzero_mae target reconstruction)
  ∧ not_negative (zero_mae target reconstruction).
Proof.
  split_and!.
  - apply div_not_negative; [|apply of_nat_sign].
    apply reduce_sum_not_negative, square_not_negative.
  - apply div_not_negative; [|apply of_nat_sign].
    apply reduce_sum_not_negative, square_not_negative.
  - apply div_not_negative; [|apply of_nat_sign].
    apply reduce_sum_not_negative, abs_not_negative.
  - unfold nonzero_mae. apply div_not_negative.
    + apply reduce_sum_not_negative, abs_not_negative.
    + unfold rsub, cast, equal. rewrite !map_map.
      apply mask_sum_clear. intros x. by destruct (f32_eqb x zero).
  - unfold zero_mae. apply div_not_negative.
    + apply reduce_sum_not_negative, abs_not_negative.
    + unfold cast, equal. rewrite map_map.
      apply mask_sum_clear. intros x. by destruct (f32_eqb x zero).
Qed.

(** The squared error of two finite entries can overflow to plus
    infinity. *)
Example nonzero_mse_overflow_example :
  nonzero_mse [of_Z (2 ^ 70)] [f32_opp (of_Z (2 ^ 70))] = infinity.
Proof. vm_compute. reflexivity. Qed.



(** ** A perfect reconstruction *)





(** The converse fails: the square of a small difference underflows to
    zero, so both squared errors are [+0] although the reconstruction
    differs from the target. *)
Example zero_error_without_equality_example :
  nonzero_mse [one; zero] [one; tiny] = zero
  ∧ zero_mse [one; zero] [one; tiny] = zero
  ∧ tiny ≠ zero.
Proof. split_and!; [vm_compute; reflexivity..|vm_compute; discriminate]. Qed.

End LossFacts32.

(** * Compilation of the autoencoder *)

Module AutoencoderFacts.
Import Autoencoder.

(** C5, as the code has it. Whatever the configured loss, the metrics on the
    reconstruction output are [mae], [nonzero_mae], [zero_mae], [zero_mse]
    and [nonzero_mse]: the four masked errors and the plain mean absolute
    error.  [composite_mse] is never a metric; it is the added loss when the
    configured loss is ['composite_mse']. *)
Theorem metrics_on_reconstruction (optimiser loss : string)
    (opt_args : list (string * Qc)) :
  metrics_on (init optimiser loss opt_args) "reconstruction"
  = [Fmae; Fnonzero_mae; Fzero_mae; Fzero_mse; Fnonzero_mse]
  ∧ Fcomposite_mse ∉ metrics_on (init optimiser loss opt_args) "reconstruction"
  ∧ (m_losses (init optimiser loss opt_args)
     = if String.eqb loss "composite_mse"
       then [AddedLoss Fcomposite_mse
               ["input_image"; "reconstruction"; "frac"]]
       else []).
Proof.
  assert (metrics_on (init optimiser loss opt_args) "reconstruction"
          = [Fmae; Fnonzero_mae; Fzero_mae; Fzero_mse; Fnonzero_mse]) as E.
  { unfold init, metrics_on. by destruct (String.eqb loss "composite_mse"). }
  split_and!.
  - exact E.
  - rewrite E. intros H. repeat (apply elem_of_cons in H as [H|H]; [done|]).
    by apply elem_of_nil in H.
  - unfold init. by destruct (String.eqb loss "composite_mse").
Qed.

(** C5 as stated fails: with the composite loss configured (and with a
    standard loss as well), [composite_mse] is not among the metrics of the
    reconstruction output. *)
Lemma composite_mse_not_a_metric :
  ¬ (∀ loss : string,
       Forall (λ f, f ∈ metrics_on (init "sgd" loss []) "reconstruction")
         [Fnonzero_mse; Fzero_mse; Fnonzero_mae; Fzero_mae; Fcomposite_mse]).
Proof.
  intros H. specialize (H "composite_mse"%string).
  rewrite !Forall_cons in H. destruct H as (_ & _ & _ & _ & H & _).
  vm_compute in H. repeat (apply elem_of_cons in H as [H|H]; [done|]).
  by apply elem_of_nil in H.
Qed.

End AutoencoderFacts.

(** * [process_batch] *)

Module GninaFunctionsFacts.
Import Py GninaFunctions.

(** C9, as the code has it. [process_batch] raises if and only if training
    is requested and no labels tensor is supplied; the exception is a
    [RuntimeError] carrying the message about missing labels, and when it is
    raised no call has been made: no batch is fetched, nothing is inferred. *)
Theorem process_batch_missing_labels {L : Type} (batch_size : nat)
    (labels_tensor : option L) (train : bool)
    (autoencoder : option autoencoder_model) (tr : list call) :
  ((∃ e, (process_batch batch_size labels_tensor train autoencoder tr).1
         = Raise e)
   ↔ train = true ∧ labels_tensor = None)
  ∧ (∀ e, (process_batch batch_size labels_tensor train autoencoder tr).1
          = Raise e →
          e = RuntimeError ["Labels must be provided for backpropagation";
                            "if train == True"]
          ∧ exn_class e = "RuntimeError"
          ∧ (process_batch batch_size labels_tensor train autoencoder tr).2
            = tr).
Proof.
  unfold process_batch.
  destruct train, labels_tensor as [l|], autoencoder as [ae|]; cbn;
    (split; [split; [intros [e He]; discriminate || done
                    |intros [? ?]; discriminate || eauto]
            |intros e He; inversion He; done || discriminate]).
Qed.

Lemma process_batch_missing_labels_witness :
  (process_batch (L := unit) 4 None true None []).1
  = Raise (RuntimeError ["Labels must be provided for backpropagation";
                         "if train == True"])
  ∧ (process_batch (L := unit) 4 None true None []).2 = [].
Proof.
  destruct (process_batch_missing_labels (L := unit) 4 None true None [])
    as [[_ Hraise] Hkind].
  destruct (Hraise (conj eq_refl eq_refl)) as [e He].
  destruct (Hkind e He) as (-> & _ & Htr).
  by split.
Defined.

(** C9 as stated fails on the kind of the error: with training requested and
    no labels, the exception raised is a [RuntimeError], not of a class
    [MissingLabelsError]. *)
Lemma process_batch_error_is_runtime_error :
  ¬ (∃ e tr, process_batch (L := unit) 4 None true None [] = (Raise e, tr)
             ∧ exn_class e = "MissingLabelsError").
Proof.
  intros (e & tr & Hrun & Hcls). vm_compute in Hrun.
  inversion Hrun; subst. discriminate Hcls.
Qed.

End GninaFunctionsFacts.

(** * The streaming encode pipeline *)

Module PathlibFacts.
Import Pathlib.

Lemma split_slash_no_slash s : Forall no_slash (split_slash s).
Proof.
  induction s as [|a s IH]; cbn.
  - by repeat constructor.
  - destruct (Ascii.eqb_spec a "/"%char) as [->|Ha].
    + constructor; [exact I|done].
    + destruct (split_slash s) as [|h t]; inversion IH; subst;
        repeat constructor; done.
Qed.

Lemma split_slash_id s : no_slash s → split_slash s = [s].
Proof.
  induction s as [|a s IH]; cbn; [done|]. intros [Ha Hs].
  destruct (Ascii.eqb_spec a "/"%char) as [->|_]; [done|].
  by rewrite IH.
Qed.

Lemma no_slash_app s t : no_slash s → no_slash t → no_slash (s +:+ t).
Proof. induction s; cbn; [done|]. intros [? ?] ?. split; auto. Qed.

Lemma no_slash_substring n m s : no_slash s → no_slash (String.substring n m s).
Proof.
  revert n m. induction s as [|a s IH]; intros [|n] [|m]; cbn; try done.
  - intros [? ?]. split; auto.
  - intros [? ?]. auto.
  - intros [? ?]. auto.
Qed.

Lemma no_slash_name p : Forall (λ c, c = "/"%string ∨ no_slash c) p → no_slash (name p).
Proof.
  intros H. unfold name. destruct (last p) as [n|] eqn:E; [|exact I].
  destruct (String.eqb_spec n "/") as [->|Hn]; [exact I|].
  apply last_Some_elem_of in E. rewrite Forall_forall in H.
  destruct (H _ E); done.
Qed.

Lemma of_string_parts s : Forall (λ c, c = "/"%string ∨ no_slash c) (of_string s).
Proof.
  assert (Forall (λ c, c = "/"%string ∨ no_slash c)
            (List.filter is_component (split_slash s))) as H.
  { apply Forall_forall. intros c Hc. right.
    apply list_elem_of_In, List.filter_In in Hc as [Hc _].
    pose proof (split_slash_no_slash s) as Hall. rewrite Forall_forall in Hall.
    apply Hall. by apply list_elem_of_In. }
  unfold of_string. destruct s as [|a s]; [done|].
  destruct (Ascii.ascii_dec a "/"%char) as [->|Ha].
  - constructor; [by left|done].
  - destruct a as [[] [] [] [] [] [] [] []]; try done.
Qed.

Lemma no_slash_stem p : Forall (λ c, c = "/"%string ∨ no_slash c) p → no_slash (stem p).
Proof.
  intros H. unfold stem. pose proof (no_slash_name p H) as Hn.
  destruct (rfind "." (name p)) as [i|]; [|done].
  destruct ((0 <? i) && (i <? String.length (name p) - 1)); [|done].
  by apply no_slash_substring.
Qed.

(** A single component that is neither empty nor ["."] parses to itself. *)
Lemma of_string_component s :
  no_slash s → s ≠ ""%string → s ≠ "."%string → of_string s = [s].
Proof.
  intros Hs Hne Hdot. unfold of_string. rewrite split_slash_id by done.
  cbn. unfold is_component.
  destruct (String.eqb_spec s "") as [->|_]; [done|].
  destruct (String.eqb_spec s ".") as [->|_]; [done|]. cbn.
  destruct s as [|a s]; [done|]. destruct Hs as [Ha _].
  destruct a as [[] [] [] [] [] [] [] []]; try done.
Qed.

Lemma bin_suffix_component s :
  no_slash s → of_string (s +:+ ".bin") = [(s +:+ ".bin")%string].
Proof.
  intros Hs. apply of_string_component.
  - apply no_slash_app; [done|]. cbn. repeat split; done.
  - by destruct s.
  - destruct s as [|a [|b s]]; cbn; done.
Qed.

Lemma joinpath_component p s :
  no_slash s → s ≠ ""%string → s ≠ "."%string → joinpath p s = p ++ [s].
Proof.
  intros Hs Hne Hdot. unfold joinpath. rewrite of_string_component by done.
  destruct (String.eqb_spec s "/") as [->|Hn]; [by destruct Hs|].
  destruct s as [|a s]; [done|]. destruct Hs as [Ha _].
  destruct a as [[] [] [] [] [] [] [] []]; try done.
  all: destruct s; done.
Qed.

End PathlibFacts.

Module PipelineFacts.
Import Py Pathlib Pipeline PipelineSpec PathlibFacts.

(** ** The monad *)

Lemma bind_ok {W A B} (m : M W A) (k : A → M W B) w a w' :
  m w = (Ok a, w') → (m ≫= k) w = k a w'.
Proof. intros H. unfold mbind, M_bind. by rewrite H. Qed.

Lemma bind_raise {W A B} (m : M W A) (k : A → M W B) w e w' :
  m w = (Raise e, w') → (m ≫= k) w = (Raise e, w').
Proof. intros H. unfold mbind, M_bind. by rewrite H. Qed.

(** A loop whose body cannot raise under the invariant [I] runs to the end
    and re-establishes [I]. *)
Lemma for_each_inv {W A St} (I : nat → St → W → Prop) (xs : list A)
    (body : A → St → M W St) (s : St) (w : W) :
  I 0 s w →
  (∀ i x s w, xs !! i = Some x → I i s w →
              ∃ s' w', body x s w = (Ok s', w') ∧ I (S i) s' w') →
  ∃ s' w', for_each xs body s w = (Ok s', w') ∧ I (length xs) s' w'.
Proof.
  revert I s w. induction xs as [|x xs IH]; intros I s w H0 Hstep.
  - by exists s, w.
  - destruct (Hstep 0 x s w eq_refl H0) as (s1 & w1 & Hb & H1).
    destruct (IH (λ i, I (S i)) s1 w1 H1) as (s' & w' & Hrun & Hend).
    { intros i y s2 w2 Hy. by apply (Hstep (S i)). }
    exists s', w'. split; [|done].
    cbn [for_each]. by rewrite (bind_ok _ _ _ _ _ Hb).
Qed.

Lemma for_range_inv {W St} (I : nat → St → W → Prop) (n : nat)
    (body : nat → St → M W St) (s : St) (w : W) :
  I 0 s w →
  (∀ i s w, i < n → I i s w →
            ∃ s' w', body i s w = (Ok s', w') ∧ I (S i) s' w') →
  ∃ s' w', for_range n body s w = (Ok s', w') ∧ I n s' w'.
Proof.
  intros H0 Hstep. unfold for_range.
  destruct (for_each_inv I (seq 0 n) body s w H0) as (s' & w' & Hrun & Hend).
  - intros i x s1 w1 Hx. apply lookup_seq in Hx as [-> Hi]. by apply Hstep.
  - rewrite length_seq in Hend. eauto.
Qed.

(** ** [get_paths] *)

Lemma map_seq_size {A} start (xs : list A) :
  size (map_seq start xs : gmap nat A) = length xs.
Proof.
  revert start. induction xs as [|x xs IH]; intros start; cbn.
  - apply map_size_empty.
  - rewrite map_size_insert_None, IH; [done|].
    apply lookup_map_seq_None. lia.
Qed.

Lemma get_paths_loop_ok idx lines st :
  gp_recs st = ∅ →
  get_paths_loop idx lines st = Ok (map_seq idx lines ∪ gp_paths st).
Proof.
  revert idx st. induction lines as [|[[label rec] lig] rest IH];
    intros idx st Hrecs; cbn [get_paths_loop map_seq].
  - by rewrite (left_id_L ∅ (∪)).
  - assert (bool_decide (Some rec ≠ gp_current_rec st)
            && bool_decide (rec ∈ gp_recs st) = false) as ->.
    { rewrite Hrecs. apply andb_false_iff. right.
      apply bool_decide_eq_false_2. set_solver. }
    assert (map_seq (S idx) rest ∪ <[idx:=(label, rec, lig)]> (gp_paths st)
            = <[idx:=(label, rec, lig)]> (map_seq (S idx) rest) ∪ gp_paths st)
      as E.
    { rewrite <- insert_union_l, <- insert_union_r; [done|].
      apply lookup_map_seq_None. lia. }
    destruct (decide (idx = 0)); rewrite IH by done; cbn; by rewrite E.
Qed.

(** [get_paths] never raises: it returns the lines by position. *)
Lemma get_paths_ok (lines : list record) :
  get_paths lines = Ok (map_seq 0 lines).
Proof.
  unfold get_paths. rewrite get_paths_loop_ok by done. cbn.
  by rewrite (right_id_L ∅ (∪)).
Qed.

(** ** Flushing *)

Section Run.
Context {Enc : Type} (encoder : nat → nat → Enc).

Lemma flush_all_nil dir (w : @World Enc) : flush_all dir [] w = w.
Proof. destruct w. unfold flush_all. cbn. by rewrite app_nil_r. Qed.

Lemma write_all_dirs (ws : list (Path * @protein Enc)) f :
  dirs (write_all ws f) = dirs f.
Proof.
  unfold write_all. revert f. induction ws as [|pm ws IH]; intros f; [done|].
  cbn [foldl]. by rewrite IH.
Qed.

Lemma flush_all_app dir (g1 g2 : list (@group Enc)) w :
  flush_all dir (g1 ++ g2) w = flush_all dir g2 (flush_all dir g1 w).
Proof.
  unfold flush_all, write_all. cbn.
  by rewrite map_app, foldl_app, app_assoc.
Qed.

Lemma bin_name_component dir rec :
  joinpath dir (bin_name rec) = dir ++ [bin_name rec].
Proof.
  pose proof (no_slash_stem _ (of_string_parts rec)) as Hs.
  unfold joinpath, bin_name. rewrite bin_suffix_component by done.
  destruct (stem (of_string rec)) as [|a s] eqn:E; [done|].
  destruct Hs as [Ha _]. cbn.
  destruct a as [[] [] [] [] [] [] [] []]; try done.
Qed.

Lemma write_encodings_to_disk_ok rec (encodings : list (@entry Enc)) dir w :
  write_encodings_to_disk rec encodings dir w
  = (Ok tt, flush_all dir [(rec, encodings)] w).
Proof.
  unfold write_encodings_to_disk, open_write, modify.
  by rewrite bin_name_component.
Qed.

Lemma absorb_prefix (fl : list (@group Enc)) cur encs items :
  absorb (fl, cur, encs) items
  = let '(fl', cur', encs') := absorb ([], cur, encs) items in
    (fl ++ fl', cur', encs').
Proof.
  unfold absorb. revert fl cur encs.
  induction items as [|[[[label rec] lig] enc] items IH]; intros fl cur encs.
  - cbn. by rewrite app_nil_r.
  - cbn [foldl absorb_step]. destruct (decide (rec ≠ cur)).
    + rewrite IH, (IH ([] ++ _)).
      destruct (foldl absorb_step _ items) as [[fl' cur'] encs'].
      cbn. by rewrite <- app_assoc.
    + apply IH.
Qed.

Lemma absorb_snoc (s : list (@group Enc) * string * list (@entry Enc))
    items it :
  absorb s (items ++ [it]) = absorb_step (absorb s items) it.
Proof. unfold absorb. by rewrite foldl_app. Qed.

Lemma absorb_app (s : list (@group Enc) * string * list (@entry Enc))
    l1 l2 :
  absorb s (l1 ++ l2) = absorb (absorb s l1) l2.
Proof. unfold absorb. by rewrite foldl_app. Qed.

(** One pass of the loop body is one [absorb_step]. *)
Lemma consume_ok paths en dir g j cur encs (w : @World Enc) r :
  paths !! g = Some r →
  consume paths en dir g j (cur, encs) w
  = let '(fl, cur', encs') := absorb_step ([], cur, encs) (r, en j) in
    (Ok (cur', encs'), flush_all dir fl w).
Proof.
  intros Hr. destruct r as [[label rec] lig].
  unfold consume, getitem, lift. rewrite Hr. cbn [absorb_step].
  unfold mbind, M_bind, mret, M_ret.
  destruct (decide (rec ≠ cur)).
  - by rewrite write_encodings_to_disk_ok.
  - by rewrite flush_all_nil.
Qed.

(** The inner loop over one batch absorbs the lines [rs] of that batch. *)
Lemma batch_loop paths en dir base (rs : list record) cur encs
    (w : @World Enc) :
  (∀ j r, rs !! j = Some r → paths !! (base + j) = Some r) →
  for_range (length rs)
    (λ batch_idx st, consume paths en dir (base + batch_idx) batch_idx st)
    (cur, encs) w
  = let '(fl, cur', encs') :=
      absorb ([], cur, encs) (imap (λ j r, (r, en j)) rs) in
    (Ok (cur', encs'), flush_all dir fl w).
Proof.
  intros Hpaths.
  set (items := imap (λ j r, (r, en j)) rs).
  destruct (for_range_inv
    (λ i (st : string * list (@entry Enc)) w',
       ∃ fl, absorb ([], cur, encs) (take i items) = (fl, st.1, st.2)
             ∧ w' = flush_all dir fl w)
    (length rs)
    (λ batch_idx st, consume paths en dir (base + batch_idx) batch_idx st)
    (cur, encs) w) as ([cur' encs'] & w' & Hrun & fl & Habs & ->).
  - exists []. by rewrite flush_all_nil.
  - intros i [c e] w1 Hi (fl & Habs & ->). cbn [fst snd] in Habs.
    destruct (lookup_lt_is_Some_2 rs i Hi) as [r Hr].
    rewrite (consume_ok _ _ _ _ _ _ _ _ r) by auto.
    assert (items !! i = Some (r, en i)) as Hit.
    { unfold items. by rewrite list_lookup_imap, Hr. }
    rewrite (take_S_r _ _ _ Hit), absorb_snoc, Habs.
    destruct r as [[label rec] lig]. cbn [absorb_step].
    destruct (decide (rec ≠ c)).
    + eexists _, _. split; [reflexivity|]. eexists. split; [reflexivity|].
      by rewrite (flush_all_app _ fl).
    + eexists _, _. split; [reflexivity|]. eexists. split; [reflexivity|].
      by rewrite flush_all_nil.
  - rewrite Hrun. rewrite take_ge in Habs
      by (unfold items; rewrite length_imap; lia).
    rewrite Habs. done.
Qed.

Lemma batch_loop_n paths en dir base n (rs : list record) cur encs
    (w : @World Enc) :
  length rs = n →
  (∀ j r, rs !! j = Some r → paths !! (base + j) = Some r) →
  for_range n
    (λ batch_idx st, consume paths en dir (base + batch_idx) batch_idx st)
    (cur, encs) w
  = let '(fl, cur', encs') :=
      absorb ([], cur, encs) (imap (λ j r, (r, en j)) rs) in
    (Ok (cur', encs'), flush_all dir fl w).
Proof. intros <-. apply batch_loop. Qed.

(** The results of batch [k], of which [m] are consumed, follow those of
    the batches before it. *)
Lemma items_of_split bs k m (lines : list record) :
  k * bs + m ≤ length lines → m ≤ bs →
  items_of encoder bs (take (k * bs + m) lines)
  = items_of encoder bs (take (k * bs) lines)
    ++ imap (λ j r, (r, encoder k j)) (take m (drop (k * bs) lines)).
Proof.
  intros Hlen Hm. rewrite <- take_take_drop. unfold items_of.
  rewrite imap_app. f_equal. apply imap_ext. intros j r Hj.
  apply lookup_lt_Some in Hj. rewrite length_take in Hj.
  rewrite length_take_le by lia.
  replace ((k * bs + j) `div` bs) with k
    by (apply (Nat.div_unique _ _ _ j); lia).
  replace ((k * bs + j) `mod` bs) with j
    by (apply (Nat.mod_unique _ _ k); lia).
  done.
Qed.

Lemma batch_lines_lookup bs k m (lines : list record) j r :
  take m (drop (k * bs) lines) !! j = Some r →
  (map_seq 0 lines : gmap nat record) !! (k * bs + j) = Some r.
Proof.
  rewrite lookup_map_seq_0, lookup_take, lookup_drop.
  case_decide; [done|discriminate].
Qed.

(** The loop over the whole batches. *)
Lemma full_batches bs (lines : list record) dir first n (w : @World Enc) :
  0 < bs → n * bs ≤ length lines → requested w = 0 →
  for_range n (λ iteration st,
      batch ← next_batch bs;
      forward batch;;
      encodings_numpy ← predict_on_batch encoder;
      for_range bs (λ batch_idx st,
        let global_idx := iteration * bs + batch_idx in
        consume (map_seq 0 lines) encodings_numpy dir global_idx batch_idx st)
        st)
    (first, []) w
  = let '(fl, cur, encs) :=
      absorb ([], first, []) (items_of encoder bs (take (n * bs) lines)) in
    (Ok (cur, encs), after_batches n (flush_all dir fl w)).
Proof.
  intros Hbs Hlen Hreq.
  match goal with |- for_range n ?body _ _ = _ =>
    destruct (for_range_inv
      (λ k (st : string * list (@entry Enc)) w',
         ∃ fl, absorb ([], first, [])
                 (items_of encoder bs (take (k * bs) lines))
               = (fl, st.1, st.2)
               ∧ w' = after_batches k (flush_all dir fl w))
      n body (first, []) w)
      as ([cur encs] & w' & Hrun & fl & Habs & ->)
  end.
  - exists []. cbn. split; [done|]. rewrite flush_all_nil. by destruct w.
  - intros k [c e] w1 Hk (fl & Habs & ->). cbn [fst snd] in Habs.
    assert (k * bs + bs ≤ length lines) as Hk' by nia.
    unfold mbind, M_bind, next_batch, forward, modify, predict_on_batch.
    cbn [requested input_tensor after_batches flush_all fs forwarded
         predicted written].
    cbv zeta.
    rewrite (batch_loop_n _ _ _ (k * bs) bs
               (take bs (drop (k * bs) lines))).
    2:{ rewrite length_take, length_drop. lia. }
    2:{ intros j r. apply batch_lines_lookup. }
    rewrite Hreq, Nat.add_0_r.
    replace (S k * bs) with (k * bs + bs) by lia.
    rewrite items_of_split, absorb_app, Habs, (absorb_prefix fl) by lia.
    destruct (absorb ([], c, e) _) as [[fl2 c2] e2].
    eexists _, _. split; [reflexivity|]. exists (fl ++ fl2).
    split; [done|]. rewrite flush_all_app. unfold after_batches, flush_all.
    cbn. by rewrite Hreq, Nat.add_0_r.
  - rewrite Hrun, Habs. done.
Qed.

Lemma encodings_dir_joinpath save_path :
  joinpath (of_string save_path) "encodings" = encodings_dir_of save_path.
Proof. by apply joinpath_component; cbn; repeat split. Qed.

(** What a run on a non-empty types file does. *)
Lemma calculate_encodings_run bs (first : record) rest save_path
    (w0 : @World Enc) :
  0 < bs →
  calculate_encodings encoder bs (first :: rest) save_path w0
  = (Ok tt,
     after_batches (S (length (first :: rest) `div` bs))
       (flush_all (encodings_dir_of save_path)
          (flushed_groups (receptor first)
             (items_of encoder bs (first :: rest)))
          (start_world save_path w0))).
Proof.
  intros Hbs. set (lines := first :: rest).
  set (n := length lines `div` bs). set (dir := encodings_dir_of save_path).
  pose proof (Nat.div_mod (length lines) bs ltac:(lia)) as Hdm.
  pose proof (Nat.mod_upper_bound (length lines) bs ltac:(lia)) as Hrem.
  fold n in Hdm. set (rem := length lines `mod` bs) in *.
  unfold calculate_encodings. rewrite get_paths_ok.
  unfold mbind at 1 2 3 4 5. unfold M_bind at 1 2 3 4 5.
  unfold populate, modify, lift. cbv beta iota zeta.
  rewrite map_seq_size. fold lines. unfold floordiv. 
  rewrite decide_False by lia. cbv beta iota zeta.
  unfold getitem. rewrite lookup_map_seq_0. cbn [lookup list_lookup lines].
  cbv beta iota zeta.
  rewrite encodings_dir_joinpath. fold n dir. unfold mkdir, modify.
  cbv beta iota zeta.
  cbn [fs requested input_tensor forwarded predicted written].
  change (MkWorld (mkdir_fs dir (fs w0)) 0 (input_tensor w0) (forwarded w0)
            (predicted w0) (written w0)) with (start_world save_path w0).
  pose proof (full_batches bs lines dir (receptor first) n
                (start_world save_path w0) Hbs ltac:(lia) eq_refl) as Hfull.
  destruct (absorb ([], receptor first, [])
              (items_of encoder bs (take (n * bs) lines)))
    as [[fl cur] encs] eqn:Habs.
  rewrite (bind_ok _ _ _ _ _ Hfull). clear Hfull.
  unfold pymod. rewrite decide_False by lia. fold rem.
  unfold mbind at 1 2 3 4. unfold M_bind at 1 2 3 4.
  unfold next_batch, forward, modify, predict_on_batch.
  cbv beta iota zeta.
  cbn [requested input_tensor after_batches flush_all fs forwarded
       predicted written start_world].
  match goal with |- (_ ≫= _) ?w = _ =>
    pose proof (batch_loop_n (map_seq 0 lines) (encoder (n + 0)) dir (n * bs)
                  rem (take rem (drop (n * bs) lines)) cur encs w) as Hlast
  end.
  rewrite Nat.add_0_r in *.
  assert (items_of encoder bs lines
          = items_of encoder bs (take (n * bs) lines)
            ++ imap (λ j r, (r, encoder n j))
                 (take rem (drop (n * bs) lines))) as Hitems.
  { rewrite <- items_of_split by lia. by rewrite take_ge by lia. }
  unfold flushed_groups. rewrite Hitems, absorb_app, Habs.
  rewrite (absorb_prefix fl).
  destruct (absorb ([], cur, encs) _) as [[fl2 cur2] encs2].
  rewrite (bind_ok _ _ _ _ _ (Hlast ltac:(rewrite length_take, length_drop; lia)
                                    ltac:(intros j r; apply batch_lines_lookup))).
  clear Hlast.
  destruct (decide (length encs2 ≠ 0)).
  - rewrite write_encodings_to_disk_ok. f_equal.
    rewrite !flush_all_app. unfold after_batches, flush_all, start_world.
    cbn. by rewrite !Nat.add_0_r.
  - unfold mret, M_ret. f_equal.
    rewrite !flush_all_app, flush_all_nil.
    unfold after_batches, flush_all, start_world.
    cbn. by rewrite !Nat.add_0_r.
Qed.

End Run.

(** ** Contiguity *)

Lemma contiguous_cons x rest :
  contiguous (x :: rest) ↔
  (head rest = Some x ∨ x ∉ rest) ∧ contiguous rest.
Proof.
  split.
  - intros H. split.
    + destruct rest as [|y rest']; [right; apply not_elem_of_nil|].
      destruct (decide (y = x)) as [->|Hy]; [by left|]. right.
      intros Hin. apply list_elem_of_lookup in Hin as [k Hk].
      destruct k as [|k]; [cbn in Hk; congruence|].
      apply Hy. apply (H 0 1 (S (S k)) x y); [lia|done..].
    + intros i j k a b Hijk Hi Hj Hk.
      apply (H (S i) (S j) (S k) a b); [lia|done..].
  - intros [Hhead Hrest] i j k a b Hijk Hi Hj Hk.
    destruct i as [|i].
    + cbn in Hi. injection Hi as <-.
      destruct j as [|j]; [lia|]. destruct k as [|k]; [lia|].
      cbn in Hj, Hk.
      destruct Hhead as [Hhead|Hnotin].
      2:{ exfalso. apply Hnotin. by eapply list_elem_of_lookup_2. }
      destruct rest as [|y rest']; [done|]. cbn in Hhead.
      injection Hhead as ->.
      destruct j as [|j]; [cbn in Hj; congruence|].
      apply (Hrest 0 (S j) k x b); [lia|done..].
    + destruct j as [|j]; [lia|]. destruct k as [|k]; [lia|].
      apply (Hrest i j k a b); [lia|done..].
Qed.

Lemma grouped_contiguous recs : grouped recs = true ↔ contiguous recs.
Proof.
  induction recs as [|x rest IH].
  - split; [|done]. intros _ i j k a b _ Hi. by rewrite lookup_nil in Hi.
  - rewrite contiguous_cons, <- IH. cbn [grouped].
    rewrite andb_true_iff. f_equiv.
    destruct rest as [|y rest']; cbn.
    + split; [|done]. intros _. right. apply not_elem_of_nil.
    + rewrite orb_true_iff, bool_decide_eq_true, negb_true_iff,
        bool_decide_eq_false.
      split; (intros [H|H]; [left; congruence|by right]).
Qed.

(** ** Runs and first appearances *)

Lemma first_seen_subset x recs : x ∈ first_seen recs → x ∈ recs.
Proof.
  revert x. induction recs as [|y rest IH]; intros x; cbn; [done|].
  rewrite !elem_of_cons, list_elem_of_filter.
  intros [->|[_ Hx]]; [by left|right; by apply IH].
Qed.

Lemma first_seen_NoDup recs : NoDup (first_seen recs).
Proof.
  induction recs as [|y rest IH]; cbn; constructor.
  - rewrite list_elem_of_filter. by intros [Hy _].
  - by apply NoDup_filter.
Qed.

Lemma filter_ne_id (x : string) (l : list string) : x ∉ l → filter (λ y, y ≠ x) l = l.
Proof.
  induction l as [|y l IH]; [done|]. rewrite not_elem_of_cons.
  intros [Hxy Hl]. rewrite filter_cons, decide_True by done.
  by rewrite IH.
Qed.

Lemma filter_ne_idemp (x : string) (l : list string) :
  filter (λ y, y ≠ x) (filter (λ y, y ≠ x) l) = filter (λ y, y ≠ x) l.
Proof.
  apply filter_ne_id. rewrite list_elem_of_filter. by intros [Hx _].
Qed.

Lemma runs_cons_cons x y l :
  runs (x :: y :: l)
  = if decide (y = x) then runs (y :: l) else x :: runs (y :: l).
Proof. reflexivity. Qed.

(** On a contiguous list the runs are the distinct receptors in the order
    of their first appearance. *)
Lemma runs_first_seen recs : contiguous recs → runs recs = first_seen recs.
Proof.
  induction recs as [|x rest IH]; [done|].
  rewrite contiguous_cons. intros [Hhead Hrest]. specialize (IH Hrest).
  destruct rest as [|y rest']; [done|].
  rewrite runs_cons_cons. destruct (decide (y = x)) as [->|Hy].
  - rewrite IH. cbn [first_seen].
    rewrite filter_cons, decide_False by (intros Hxx; by apply Hxx).
    by rewrite filter_ne_idemp.
  - destruct Hhead as [Hhead|Hnotin]; [cbn in Hhead; congruence|].
    rewrite IH. cbn [first_seen]. f_equal.
    symmetry. apply (filter_ne_id x (first_seen (y :: rest'))).
    intros Hin. by apply Hnotin, first_seen_subset.
Qed.

Section Groups.
Context {Enc : Type}.

(** ** The groups partition the results, in order *)

Lemma group_items_snoc cur (encs : list (@entry Enc)) label lig enc :
  group_items (cur, encs ++ [(label, lig, enc)])
  = group_items (cur, encs) ++ [((label, cur, lig), enc)].
Proof. unfold group_items. cbn. by rewrite map_app. Qed.

Lemma absorb_cons (s : list (@group Enc) * string * list (@entry Enc))
    it items :
  absorb s (it :: items) = absorb (absorb_step s it) items.
Proof. reflexivity. Qed.

Lemma absorb_items (items : list (@item Enc)) cur encs :
  ∀ fl c' e', absorb ([], cur, encs) items = (fl, c', e') →
  flat_map group_items fl ++ group_items (c', e')
  = group_items (cur, encs) ++ items.
Proof.
  revert cur encs.
  induction items as [|[[[label rec] lig] enc] items IH];
    intros cur encs fl c' e' Habs.
  - cbn in Habs. injection Habs as <- <- <-. cbn. by rewrite app_nil_r.
  - rewrite absorb_cons in Habs. cbn [absorb_step] in Habs.
    destruct (decide (rec ≠ cur)) as [Hne|Heq].
    + rewrite absorb_prefix in Habs.
      destruct (absorb _ items) as [[fl2 c2] e2] eqn:E.
      injection Habs as <- <- <-.
      specialize (IH _ _ _ _ _ E). cbn [app flat_map].
      rewrite <- app_assoc, IH. done.
    + apply dec_stable in Heq. subst rec.
      rewrite (IH _ _ _ _ _ Habs), group_items_snoc, <- app_assoc. done.
Qed.

(** ** The receptors of the groups are the runs of the input *)

Lemma absorb_keys (items : list (@item Enc)) cur encs :
  ∀ fl c' e', encs ≠ [] → absorb ([], cur, encs) items = (fl, c', e') →
  map fst fl ++ [c'] = runs (cur :: map (λ it, receptor it.1) items)
  ∧ e' ≠ [] ∧ Forall (λ g : group, g.2 ≠ []) fl.
Proof.
  revert cur encs.
  induction items as [|[[[label rec] lig] enc] items IH];
    intros cur encs fl c' e' Hne Habs.
  - cbn in Habs. injection Habs as <- <- <-. by repeat split.
  - rewrite absorb_cons in Habs. cbn [absorb_step] in Habs.
    cbn [map fst]. unfold receptor at 1. cbn [fst snd].
    rewrite runs_cons_cons.
    destruct (decide (rec ≠ cur)) as [Hrec|Hrec].
    + rewrite absorb_prefix in Habs.
      destruct (absorb _ items) as [[fl2 c2] e2] eqn:E.
      injection Habs as <- <- <-.
      assert ([(label, lig, enc)] ≠ []) as Hone by done.
      destruct (IH _ _ _ _ _ Hone E) as (Hk & He & Hfl).
      rewrite decide_False by done. cbn. rewrite Hk.
      repeat split; [done|]. constructor; done.
    + apply dec_stable in Hrec. subst rec. rewrite decide_True by done.
      assert (encs ++ [(label, lig, enc)] ≠ []) as Hmore by (by destruct encs).
      apply (IH _ _ _ _ _ Hmore Habs).
Qed.

(** The flushed groups of a run: their entries are the results in order,
    no group is empty, and their receptors are the runs of the input. *)
Lemma flushed_groups_spec (it : @item Enc) (items : list (@item Enc)) :
  let gs := flushed_groups (receptor it.1) (it :: items) in
  flat_map group_items gs = it :: items
  ∧ Forall (λ g : group, g.2 ≠ []) gs
  ∧ map fst gs = runs (map (λ it, receptor it.1) (it :: items)).
Proof.
  cbv zeta. unfold flushed_groups.
  destruct (absorb ([], receptor it.1, []) (it :: items))
    as [[fl c'] e'] eqn:Habs.
  pose proof (absorb_items _ _ _ _ _ _ Habs) as Hitems.
  rewrite absorb_cons in Habs. destruct it as [[[label rec] lig] enc].
  cbn [absorb_step fst snd receptor] in Habs. unfold receptor in Habs.
  cbn [fst snd] in Habs.
  rewrite decide_False in Habs by (intros Hxx; by apply Hxx).
  assert ([] ++ [(label, lig, enc)] ≠ []) as Hone by done.
  destruct (absorb_keys _ _ _ _ _ _ Hone Habs) as (Hk & He & Hfl).
  rewrite decide_True by (by destruct e').
  rewrite flat_map_app, map_app, Forall_app. cbn [flat_map map fst].
  rewrite app_nil_r. split_and!; try done.
  by repeat constructor.
Qed.

Lemma flushed_groups_head (items : list (@item Enc)) first :
  head (map (λ it, receptor it.1) items) = Some first →
  flat_map group_items (flushed_groups first items) = items
  ∧ Forall (λ g : group, g.2 ≠ []) (flushed_groups first items)
  ∧ map fst (flushed_groups first items)
    = runs (map (λ it, receptor it.1) items).
Proof.
  destruct items as [|it items]; [done|]. cbn [map head].
  intros [= <-]. apply flushed_groups_spec.
Qed.

Lemma items_of_records encoder bs (lines : list record) :
  map fst (items_of (Enc:=Enc) encoder bs lines) = lines.
Proof.
  unfold items_of. apply list_eq. intros i.
  rewrite list_lookup_fmap, list_lookup_imap. by destruct (lines !! i).
Qed.

Lemma group_records_items (gs : list (@group Enc)) :
  flat_map group_records gs = map fst (flat_map group_items gs).
Proof.
  induction gs as [|[rec es] gs IH]; [done|]. cbn [flat_map].
  rewrite map_app, IH. f_equal. unfold group_records, group_items. cbn.
  rewrite map_map. apply map_ext. by intros [[label lig] enc].
Qed.

End Groups.

(** ** The claims about the pipeline *)

Section Claims.
Context {Enc : Type} (encoder : nat → nat → Enc).

(** A run on a non-empty types file, with the groups it flushes. *)
Lemma run_groups bs (lines : list record) save_path (w0 : @World Enc) :
  lines ≠ [] → 0 < bs →
  ∃ (w' : @World Enc) (gs : list (@group Enc)),
    calculate_encodings encoder bs lines save_path w0 = (Ok tt, w')
    ∧ w' = after_batches (S (length lines `div` bs))
             (flush_all (encodings_dir_of save_path) gs
                (start_world save_path w0))
    ∧ flat_map group_items gs = items_of encoder bs lines
    ∧ Forall (λ g : group, g.2 ≠ []) gs
    ∧ map fst gs = runs (map receptor lines).
Proof.
  intros Hne Hbs. destruct lines as [|first rest]; [done|].
  eexists _, _. split; [by apply calculate_encodings_run|].
  split; [reflexivity|].
  destruct (flushed_groups_head (items_of encoder bs (first :: rest))
              (receptor first) eq_refl) as (Hitems & Hnonempty & Hkeys).
  split_and!; [done..|].
  rewrite Hkeys. f_equal.
  rewrite <- (items_of_records encoder bs (first :: rest)) at 2.
  by rewrite map_map.
Qed.

(** C2. For a non-empty types file whose receptors are contiguous and a
    positive batch size, the run succeeds and writes a list of groups such
    that: the records of the groups, concatenated in flush order, are the
    lines of the file in file order (every record in exactly one group, in
    file order within its group); no group is empty; and the receptors of
    the groups are the distinct receptors of the file in the order in which
    each first appears. *)
Theorem groups_flushed_in_order bs (lines : list record) save_path
    (w0 : @World Enc) :
  lines ≠ [] → 0 < bs → contiguous (map receptor lines) →
  ∃ (w' : @World Enc) (gs : list (@group Enc)),
    calculate_encodings encoder bs lines save_path w0 = (Ok tt, w')
    ∧ written w' = written w0 ++ map (to_file (encodings_dir_of save_path)) gs
    ∧ flat_map group_records gs = lines
    ∧ Forall (λ g : group, g.2 ≠ []) gs
    ∧ map fst gs = first_seen (map receptor lines)
    ∧ NoDup (map fst gs).
Proof.
  intros Hne Hbs Hcontig.
  destruct (run_groups bs lines save_path w0 Hne Hbs)
    as (w' & gs & Hrun & -> & Hitems & Hnonempty & Hkeys).
  eexists _, gs. split_and!; [exact Hrun|try done..].
  - by rewrite group_records_items, Hitems, items_of_records.
  - by rewrite Hkeys, runs_first_seen.
  - rewrite Hkeys, runs_first_seen by done. apply first_seen_NoDup.
Qed.

(** C4, as the code has it. For a non-empty types file of [total] lines and
    a positive batch size, the run requests [total / batch_size + 1]
    batches and runs the encoder on each of them; the results consumed are,
    for each line [g] in file order, row [g mod batch_size] of batch
    [g / batch_size]: every row of the first [total / batch_size] batches,
    and of the extra batch exactly the first [total mod batch_size] rows
    (none when the remainder is zero); [total] records are emitted. *)
Theorem batches_and_remainder bs (lines : list record) save_path
    (w0 : @World Enc) :
  lines ≠ [] → 0 < bs →
  let total := length lines in
  ∃ (w' : @World Enc) (gs : list (@group Enc)),
    calculate_encodings encoder bs lines save_path w0 = (Ok tt, w')
    ∧ requested w' = total `div` bs + 1
    ∧ forwarded w' = forwarded w0 + (total `div` bs + 1)
    ∧ predicted w' = predicted w0 + (total `div` bs + 1)
    ∧ written w' = written w0 ++ map (to_file (encodings_dir_of save_path)) gs
    ∧ flat_map group_items gs
      = imap (λ g r, (r, encoder (g `div` bs) (g `mod` bs))) lines
    ∧ length (flat_map group_items gs) = total
    ∧ (∀ g, g < total →
         g `div` bs < total `div` bs
         ∨ (g `div` bs = total `div` bs ∧ g `mod` bs < total `mod` bs))
    ∧ (∀ j, j < total `mod` bs →
         ∃ r, flat_map group_items gs !! (total `div` bs * bs + j)
              = Some (r, encoder (total `div` bs) j)).
Proof.
  intros Hne Hbs total.
  destruct (run_groups bs lines save_path w0 Hne Hbs)
    as (w' & gs & Hrun & -> & Hitems & Hnonempty & Hkeys).
  pose proof (Nat.div_mod total bs ltac:(lia)) as Hdm.
  pose proof (Nat.mod_upper_bound total bs ltac:(lia)) as Hrem.
  eexists _, gs. split_and!; [exact Hrun|try done..].
  - cbn. fold total. lia.
  - cbn. fold total. lia.
  - cbn. fold total. lia.
  - rewrite Hitems. unfold items_of. by rewrite length_imap.
  - intros g Hg.
    pose proof (Nat.div_mod g bs ltac:(lia)) as Hg1.
    pose proof (Nat.mod_upper_bound g bs ltac:(lia)) as Hg2.
    destruct (decide (g `div` bs < total `div` bs)); [by left|right].
    assert (g `div` bs ≤ total `div` bs)
      by (apply Nat.Div0.div_le_mono; lia).
    split; [lia|]. nia.
  - intros j Hj.
    destruct (lookup_lt_is_Some_2 lines (total `div` bs * bs + j)
                ltac:(fold total; lia)) as [r Hr].
    exists r. rewrite Hitems. unfold items_of.
    rewrite list_lookup_imap, Hr. cbn. do 3 f_equal.
    + symmetry. apply (Nat.div_unique _ _ _ j); lia.
    + symmetry. apply (Nat.mod_unique _ _ (total `div` bs)); lia.
Qed.

(** C8. A flush writes exactly one file, at
    [<save_path>/encodings/<stem of the receptor path>.bin], whose content
    replaces whatever the path held, and leaves every other file and the
    directories alone.  [mkdir] makes the encodings directory and its
    ancestors, keeps what exists, and run again (or run when they all
    exist) changes nothing.  In a run, every group is written to the file
    named after its receptor, and the directory exists afterwards. *)
Theorem flush_writes_one_bin_file (rec : string)
    (encodings : list (@entry Enc)) (save_path : string) (w : @World Enc) :
  let dir := joinpath (of_string save_path) "encodings" in
  let p := of_string save_path
           ++ ["encodings"%string;
               (stem (of_string rec) +:+ ".bin")%string] in
  dir = of_string save_path ++ ["encodings"%string]
  ∧ (∃ w', write_encodings_to_disk rec encodings dir w = (Ok tt, w')
       ∧ written w' = written w ++ [(p, build_msg rec encodings)]
       ∧ files (fs w') = <[p := build_msg rec encodings]> (files (fs w))
       ∧ files (fs w') !! p = Some (build_msg rec encodings)
       ∧ (∀ q, q ≠ p → files (fs w') !! q = files (fs w) !! q)
       ∧ dirs (fs w') = dirs (fs w))
  ∧ (∃ w1, mkdir dir w = (Ok tt, w1)
       ∧ (∀ n, 0 < n ≤ length dir → take n dir ∈ dirs (fs w1))
       ∧ dirs (fs w) ⊆ dirs (fs w1)
       ∧ files (fs w1) = files (fs w)
       ∧ mkdir dir w1 = (Ok tt, w1)
       ∧ ((∀ n, 0 < n ≤ length dir → take n dir ∈ dirs (fs w)) → w1 = w))
  ∧ (∀ bs (lines : list record),
       lines ≠ [] → 0 < bs →
       ∃ (w' : @World Enc) (gs : list (@group Enc)),
         calculate_encodings encoder bs lines save_path w = (Ok tt, w')
         ∧ written w'
           = written w
             ++ map (λ g : group,
                       (of_string save_path
                        ++ ["encodings"%string;
                            (stem (of_string g.1) +:+ ".bin")%string],
                        build_msg g.1 g.2)) gs
         ∧ dir ∈ dirs (fs w')).
Proof.
  intros dir p.
  assert (dir = of_string save_path ++ ["encodings"%string]) as Hdir
    by apply encodings_dir_joinpath.
  clearbody dir. subst dir.
  assert (∀ n (q : Path), 0 < n ≤ length q →
            take n q ∈ (list_to_set (with_parents q) : gset (list string)))
    as Hparents.
  { intros n q Hn. apply elem_of_list_to_set, list_elem_of_fmap.
    exists n. split; [done|]. apply elem_of_seq. lia. }
  split; [reflexivity|]. split_and!.
  - eexists. split; [apply write_encodings_to_disk_ok|].
    assert ((of_string save_path ++ ["encodings"%string]) ++ [bin_name rec]
            = p) as Hp.
    { unfold p, bin_name. by rewrite <- app_assoc. }
    unfold flush_all, to_file, write_all.
    cbn [map foldl fs written files dirs fst snd write_fs]. rewrite Hp.
    split_and!; try done.
    + apply lookup_insert_eq.
    + intros q Hq. by apply lookup_insert_ne.
  - eexists. split; [reflexivity|]. cbn. split_and!; try done.
    + intros n Hn. apply elem_of_union_l. by apply Hparents.
    + apply union_subseteq_r.
    + unfold mkdir, modify, mkdir_fs. cbn. do 3 f_equal.
      by rewrite (assoc_L (∪)), (idemp_L (∪)).
    + intros Hall. destruct w as [[d f] ? ? ? ? ?]. unfold mkdir_fs.
      cbn in *. do 2 f_equal. apply (anti_symm (⊆)); [|apply union_subseteq_r].
      apply union_least; [|done].
      intros q Hq. apply elem_of_list_to_set, list_elem_of_fmap in Hq
        as (n & -> & Hn). apply elem_of_seq in Hn. apply Hall. lia.
  - intros bs lines Hne Hbs.
    destruct (run_groups bs lines save_path w Hne Hbs)
      as (w' & gs & Hrun & -> & _).
    eexists _, gs. split; [exact Hrun|]. cbn. split.
    + f_equal. apply map_ext. intros g. unfold to_file, encodings_dir_of.
      by rewrite <- app_assoc.
    + rewrite write_all_dirs. cbn. apply elem_of_union_l.
      fold (encodings_dir_of save_path).
      rewrite <- (take_ge (encodings_dir_of save_path)
                    (length (encodings_dir_of save_path))) at 1 by done.
      apply Hparents. unfold encodings_dir_of. rewrite length_app. cbn. lia.
Qed.

End Claims.

(** ** The claims on concrete types files *)

Lemma groups_flushed_in_order_witness :
  let lines := types_file ["A"; "A"; "A"; "B"; "B"; "C"] in
  lines ≠ [] ∧ 0 < 2 ∧ contiguous (map receptor lines)
  ∧ ∃ (w' : @World (nat * nat)) (gs : list (@group (nat * nat))),
      calculate_encodings tag_encoder 2 lines "out" empty_world = (Ok tt, w')
      ∧ written w' = map (to_file ["out"; "encodings"]) gs
      ∧ flat_map group_records gs = lines
      ∧ map fst gs = ["A"; "B"; "C"].
Proof.
  intros lines.
  assert (lines ≠ []) as Hne by done.
  assert (0 < 2) as Hbs by lia.
  assert (contiguous (map receptor lines)) as Hc
    by (by apply grouped_contiguous).
  split_and!; [done..|].
  destruct (groups_flushed_in_order tag_encoder 2 lines "out" empty_world
              Hne Hbs Hc) as (w' & gs & Hrun & Hw & Hrecs & _ & Hkeys & _).
  exists w', gs. split_and!; done.
Defined.

(** Receptors [A,A,A,B,B,C] with batch size 2: three files, with 3, 2 and 1
    entries, in this order, although the second batch spans A and B. *)
Example grouping_example :
  map (λ pm, (pm.1, length (prot_ligand pm.2)))
    (written (calculate_encodings tag_encoder 2
                (types_file ["A"; "A"; "A"; "B"; "B"; "C"]) "out"
                empty_world).2)
  = [(["out"; "encodings"; "A.bin"], 3);
     (["out"; "encodings"; "B.bin"], 2);
     (["out"; "encodings"; "C.bin"], 1)].
Proof. vm_compute. reflexivity. Qed.

(** C4 as stated fails on the empty types file: [paths[0]] raises
    [KeyError] before any batch is requested, so no extra batch is fetched
    and the encoder is never run. *)
Lemma empty_types_file_requests_no_batch :
  let run := calculate_encodings tag_encoder 3 [] "out" empty_world in
  run.1 = Raise (KeyError 0)
  ∧ requested run.2 = 0 ∧ predicted run.2 = 0
  ∧ requested run.2 ≠ length ([] : list record) `div` 3 + 1.
Proof. vm_compute. split_and!; (reflexivity || discriminate). Qed.

Lemma batches_and_remainder_witness :
  let lines := types_file ["A"; "A"; "A"; "B"; "B"; "C"; "C"] in
  lines ≠ [] ∧ 0 < 3
  ∧ ∃ (w' : @World (nat * nat)) (gs : list (@group (nat * nat))),
      calculate_encodings tag_encoder 3 lines "out" empty_world = (Ok tt, w')
      ∧ requested w' = 3 ∧ predicted w' = 3
      ∧ length (flat_map group_items gs) = 7
      ∧ map snd (flat_map group_items gs)
        = [(0, 0); (0, 1); (0, 2); (1, 0); (1, 1); (1, 2); (2, 0)].
Proof.
  intros lines.
  assert (lines ≠ []) as Hne by done.
  assert (0 < 3) as Hbs by lia.
  split_and!; [done..|].
  destruct (batches_and_remainder tag_encoder 3 lines "out" empty_world
              Hne Hbs)
    as (w' & gs & Hrun & Hreq & _ & Hpred & _ & Hitems & Hlen & _).
  exists w', gs. split_and!; try done. by rewrite Hitems.
Defined.

Lemma flush_writes_one_bin_file_witness :
  let lines := types_file ["rec/1abc.gninatypes"; "rec/2xyz.gninatypes"] in
  lines ≠ [] ∧ 0 < 2
  ∧ ∃ (w' : @World (nat * nat)) (gs : list (@group (nat * nat))),
      calculate_encodings tag_encoder 2 lines "out/run1" empty_world
      = (Ok tt, w')
      ∧ written w'
        = map (λ g : group,
                 (["out"; "run1"; "encodings";
                   (stem (of_string g.1) +:+ ".bin")%string],
                  build_msg g.1 g.2)) gs
      ∧ ["out"; "run1"; "encodings"] ∈ dirs (fs w').
Proof.
  intros lines.
  assert (lines ≠ []) as Hne by done.
  assert (0 < 2) as Hbs by lia.
  split_and!; [done..|].
  destruct (flush_writes_one_bin_file tag_encoder "rec/1abc.gninatypes" []
              "out/run1" empty_world) as (_ & _ & _ & Hrun).
  destruct (Hrun 2 lines Hne Hbs) as (w' & gs & Hr & Hw & Hd).
  exists w', gs. split_and!; done.
Defined.

(** The file names of a run: the stem of each receptor path and [.bin]. *)
Example bin_names_example :
  map summary
    (written (calculate_encodings tag_encoder 2
                (types_file ["rec/1abc.gninatypes"; "rec/2xyz.tar.gz"])
                "out/run1" empty_world).2)
  = [(["out"; "run1"; "encodings"; "1abc.bin"], "rec/1abc.gninatypes",
      ["lig0.gninatypes"]);
     (["out"; "run1"; "encodings"; "2xyz.tar.bin"], "rec/2xyz.tar.gz",
      ["lig1.gninatypes"])].
Proof. vm_compute. reflexivity. Qed.

(** C1 on the code. The receptors [A,B,A] are not contiguous, yet
    [get_paths] returns all three lines: nothing ever adds to [recs], so the
    test [rec in recs] is always false and the error is never raised.  The
    run then flushes three groups A, B, A, and the second write of [A.bin]
    replaces the first: the file ends with the third line only. *)
Theorem ungrouped_types_file_accepted :
  let lines := types_file ["A"; "B"; "A"] in
  let run := calculate_encodings tag_encoder 1 lines "out" empty_world in
  ¬ contiguous (map receptor lines)
  ∧ get_paths lines = Ok (map_seq 0 lines)
  ∧ run.1 = Ok tt
  ∧ map summary (written run.2)
    = [(["out"; "encodings"; "A.bin"], "A", ["lig0.gninatypes"]);
       (["out"; "encodings"; "B.bin"], "B", ["lig1.gninatypes"]);
       (["out"; "encodings"; "A.bin"], "A", ["lig2.gninatypes"])]
  ∧ (map lig_path ∘ prot_ligand
       <$> files (fs run.2) !! ["out"; "encodings"; "A.bin"])
    = Some ["lig2.gninatypes"].
Proof.
  intros lines run. split_and!.
  - intros Hc. apply grouped_contiguous in Hc. discriminate Hc.
  - apply get_paths_ok.
  - vm_compute. reflexivity.
  - vm_compute. reflexivity.
  - vm_compute. reflexivity.
Qed.

End PipelineFacts.

(** * The helpers of gnina_functions.py *)

Module UtilitiesFacts.
Import Utilities UtilitiesSpec.

(** A closed comparison of two rationals. *)
Ltac qc_order := vm_compute; first [reflexivity | discriminate].

(** ** Lines and tokens *)

Lemma readlines_nonempty s : Forall (λ line, line ≠ EmptyString) (readlines s).
Proof.
  induction s as [|c s IH]; cbn; [constructor|].
  destruct (Ascii.eqb c newline); [by constructor|].
  destruct (readlines s) as [|h t]; [by repeat constructor|].
  inversion IH; subst. by constructor.
Qed.

Lemma readlines_concat s : foldr String.append EmptyString (readlines s) = s.
Proof.
  induction s as [|c s IH]; cbn; [done|].
  destruct (Ascii.eqb c newline); cbn; [by rewrite IH|].
  destruct (readlines s) as [|h t]; cbn in *; by rewrite <- IH.
Qed.

(** The filter [if len(line)] of [get_dims] keeps every line. *)
Lemma nonempty_filter_id (ls : list string) :
  Forall (λ line, line ≠ EmptyString) ls →
  List.filter (λ line, negb (String.length line =? 0)%nat) ls = ls.
Proof.
  induction 1 as [|line ls Hline _ IH]; cbn; [done|].
  destruct line; [done|]. cbn. by rewrite IH.
Qed.

Lemma sum_ones {A} (l : list A) : sum_list (map (λ _, 1%nat) l) = length l.
Proof. induction l; cbn; auto. Qed.

Lemma map_channels_lines d fname content :
  d !! fname = Some content →
  map_channels d (Some fname) = Returns (length (readlines content)).
Proof.
  intros Hf. unfold map_channels, read_file. rewrite Hf. cbn.
  by rewrite nonempty_filter_id, sum_ones by apply readlines_nonempty.
Qed.

Lemma readlines_nil s : readlines s = [] → s = EmptyString.
Proof.
  destruct s as [|c s]; [done|]. cbn.
  destruct (Ascii.eqb c newline); [done|]. by destruct (readlines s).
Qed.

Lemma readlines_count s :
  count_char newline s ≤ length (readlines s) ≤ count_char newline s + 1.
Proof.
  induction s as [|c s IH]; cbn; [lia|].
  destruct (Ascii.eqb c newline); cbn; [lia|].
  destruct (readlines s) as [|h t] eqn:E; cbn in *; [|lia].
  apply readlines_nil in E. subst s. cbn. lia.
Qed.

(** X1. With readable map files and a non-zero resolution, [get_dims]
    returns as channel count the sum, over the ligand and the receptor map,
    of 14 when no file is given and of the number of lines of the file
    otherwise.  Every line counts, blank ones included: the count is at
    least the number of newline characters of the file. *)
Theorem get_dims_channels (d : disk) (dimension resolution : Qc)
    (ligmap recmap : option string) (cl cr : nat) :
  map_lines d ligmap = Some cl → map_lines d recmap = Some cr →
  resolution ≠ 0%Qc →
  (∃ l, get_dims d dimension resolution ligmap recmap
        = Returns ((cl + cr)%nat, l, l, l))
  ∧ (∀ f content, ligmap = Some f → d !! f = Some content →
       count_char newline content ≤ cl)
  ∧ (∀ f content, recmap = Some f → d !! f = Some content →
       count_char newline content ≤ cr).
Proof.
  intros Hl Hr Hres.
  assert (∀ fname c, map_lines d fname = Some c →
                     map_channels d fname = Returns c) as Hmap.
  { intros [f|] c; cbn.
    - destruct (d !! f) as [content|] eqn:E; [|done]. intros [= <-].
      by apply map_channels_lines.
    - by intros [= <-]. }
  assert (∀ fname f content c, map_lines d fname = Some c →
            fname = Some f → d !! f = Some content →
            count_char newline content ≤ c) as Hcount.
  { intros fname f content c Hc -> Hf. cbn in Hc. rewrite Hf in Hc.
    injection Hc as <-. apply readlines_count. }
  split_and!; [|by eauto..].
  unfold get_dims. rewrite (Hmap _ _ Hl), (Hmap _ _ Hr). cbn.
  unfold floordiv_int. rewrite decide_False by done. cbn. eauto.
Qed.

Lemma get_dims_channels_witness :
  let nl := String newline EmptyString in
  let d : disk := {[ "lig.map"%string := ("C" +:+ nl +:+ nl +:+ "N" +:+ nl)%string ]} in
  map_lines d (Some "lig.map"%string) = Some 3 ∧ map_lines d None = Some 14
  ∧ Q2Qc (1 # 2) ≠ 0%Qc
  ∧ ∃ l, get_dims d (Q2Qc (47 # 2)) (Q2Qc (1 # 2)) (Some "lig.map"%string) None
         = Returns (17, l, l, l).
Proof.
  intros nl d.
  assert (map_lines d (Some "lig.map"%string) = Some 3) as Hl by reflexivity.
  assert (map_lines d None = Some 14) as Hr by reflexivity.
  assert (Q2Qc (1 # 2) ≠ 0%Qc) as Hres by done.
  split_and!; [done..|].
  destruct (get_dims_channels d (Q2Qc (47 # 2)) (Q2Qc (1 # 2))
              (Some "lig.map"%string) None 3 14 Hl Hr Hres) as [Hd _].
  exact Hd.
Defined.

(** ** The grid length *)

Lemma Qfloor_bounds (x : Qc) :
  (Qc_of_Z (Qfloor (this x)) ≤ x)%Qc ∧ (x < Qc_of_Z (Qfloor (this x)) + 1)%Qc.
Proof.
  pose proof (Qfloor_le (this x)) as Hle.
  pose proof (Qlt_floor (this x)) as Hlt.
  unfold Qcle, Qclt, Qcplus, Qc_of_Z. cbn [this Q2Qc].
  rewrite ?Qred_correct. rewrite inject_Z_plus in Hlt. split; [done|].
  done.
Qed.

(** X2. The grid length [get_dims] returns is the floor of
    [(dimension + 1) / resolution]: for a positive resolution,
    [length * resolution <= dimension + 1 < (length + 1) * resolution];
    a resolution of zero raises [ZeroDivisionError] (once the map files
    have been read).  Numbers are read as exact rationals. *)
Theorem get_dims_length (d : disk) (dimension resolution : Qc)
    (ligmap recmap : option string) (cl cr : nat) :
  map_lines d ligmap = Some cl → map_lines d recmap = Some cr →
  (resolution = 0%Qc →
   get_dims d dimension resolution ligmap recmap = Raises ZeroDivision)
  ∧ ((0 < resolution)%Qc →
     ∃ l, get_dims d dimension resolution ligmap recmap
          = Returns ((cl + cr)%nat, l, l, l)
          ∧ (Qc_of_Z l * resolution ≤ dimension + 1)%Qc
          ∧ (dimension + 1 < (Qc_of_Z l + 1) * resolution)%Qc).
Proof.
  intros Hl Hr.
  assert (∀ fname c, map_lines d fname = Some c →
                     map_channels d fname = Returns c) as Hmap.
  { intros [f|] c; cbn.
    - destruct (d !! f) as [content|] eqn:E; [|done]. intros [= <-].
      by apply map_channels_lines.
    - by intros [= <-]. }
  unfold get_dims. rewrite (Hmap _ _ Hl), (Hmap _ _ Hr). cbn.
  unfold floordiv_int. split.
  - intros ->. by rewrite decide_True.
  - intros Hpos.
    assert (resolution ≠ 0%Qc) as Hne.
    { intros ->. by apply (Qclt_not_eq 0 0). }
    rewrite decide_False by done. cbn. eexists. split; [reflexivity|].
    set (x := ((dimension + 1) / resolution)%Qc).
    destruct (Qfloor_bounds x) as [Hlo Hhi].
    assert ((x * resolution)%Qc = (dimension + 1)%Qc) as Hx.
    { unfold x. by field. }
    rewrite <- Hx. split.
    + apply Qcmult_le_compat_r; [done|]. by apply Qclt_le_weak.
    + by apply Qcmult_lt_compat_r.
Qed.

Lemma get_dims_length_witness :
  let d : disk := ∅ in
  map_lines d None = Some 14 ∧ (0 < Q2Qc (1 # 2))%Qc
  ∧ ∃ l, get_dims d (Q2Qc (47 # 2)) (Q2Qc (1 # 2)) None None
         = Returns ((14 + 14)%nat, l, l, l)
         ∧ (Qc_of_Z l * Q2Qc (1 # 2) ≤ Q2Qc (47 # 2) + 1)%Qc
         ∧ (Q2Qc (47 # 2) + 1 < (Qc_of_Z l + 1) * Q2Qc (1 # 2))%Qc.
Proof.
  intros d.
  assert (map_lines d None = Some 14) as Hm by reflexivity.
  assert (0 < Q2Qc (1 # 2))%Qc as Hpos by qc_order.
  split_and!; [done..|].
  exact (proj2 (get_dims_length d (Q2Qc (47 # 2)) (Q2Qc (1 # 2)) None None
                  14 14 Hm Hm) Hpos).
Defined.

(** The default maps, a cube of side 23.5 at resolution 0.5. *)
Example get_dims_example :
  get_dims ∅ (Q2Qc (47 # 2)) (Q2Qc (1 # 2)) None None
  = Returns (28%nat, 49%Z, 49%Z, 49%Z).
Proof. vm_compute. reflexivity. Qed.

(** ** [format_time] *)

Lemma Qfloor_nonneg (t : Qc) : (0 ≤ t)%Qc → (0 ≤ Qfloor (this t))%Z.
Proof.
  intros Ht. change 0%Z with (Qfloor 0). by apply Qfloor_resp_le.
Qed.

Lemma hms_fields (t : Z) :
  (0 ≤ t)%Z →
  let h := (t `div` 3600)%Z in
  let m := ((t - h * 3600) `div` 60)%Z in
  let s := (t - (h * 3600 + m * 60))%Z in
  (0 ≤ h ∧ 0 ≤ m < 60 ∧ 0 ≤ s < 60 ∧ h * 3600 + m * 60 + s = t)%Z.
Proof.
  intros Ht h m s.
  pose proof (Z.div_pos t 3600 Ht ltac:(lia)) as Hh.
  pose proof (Z.mul_div_le t 3600 ltac:(lia)) as H1.
  pose proof (Z.mul_succ_div_gt t 3600 ltac:(lia)) as H2.
  fold h in Hh, H1, H2.
  pose proof (Z.mul_div_le (t - h * 3600) 60 ltac:(lia)) as H3.
  pose proof (Z.mul_succ_div_gt (t - h * 3600) 60 ltac:(lia)) as H4.
  fold m in H3, H4.
  assert (0 ≤ m)%Z by (apply Z.div_pos; lia).
  assert (m < 60)%Z by (apply Z.div_lt_upper_bound; lia).
  unfold s. lia.
Qed.

Lemma format_time_ok (t : Qc) :
  (0 ≤ t)%Qc →
  ∃ h m s : Z,
    format_time t
    = Returns (format_02d h +:+ ":" +:+ format_02d m +:+ ":"
               +:+ format_02d s)%string
    ∧ (0 ≤ h ∧ 0 ≤ m < 60 ∧ 0 ≤ s < 60)%Z
    ∧ (h * 3600 + m * 60 + s = Qfloor (this t))%Z.
Proof.
  intros Ht. unfold format_time.
  rewrite decide_False by (by apply Qcle_not_lt).
  destruct (hms_fields (Qfloor (this t)) (Qfloor_nonneg t Ht))
    as (Hh & Hm & Hs & Hsum).
  eexists _, _, _. split; [reflexivity|]. tauto.
Qed.

(** X3. [format_time] raises [ValueError] exactly for a negative time;
    otherwise it returns [hh:mm:ss] whose three fields are the hours, the
    minutes below 60 and the seconds below 60 of the whole seconds of the
    time: [3600 h + 60 m + s = floor t]. *)
Theorem format_time_fields (t : Qc) :
  ((t < 0)%Qc → format_time t = Raises (ValueError "Time must be positive."))
  ∧ ((0 ≤ t)%Qc →
     ∃ h m s : Z,
       format_time t
       = Returns (format_02d h +:+ ":" +:+ format_02d m +:+ ":"
                  +:+ format_02d s)%string
       ∧ (0 ≤ h ∧ 0 ≤ m < 60 ∧ 0 ≤ s < 60)%Z
       ∧ (h * 3600 + m * 60 + s = Qfloor (this t))%Z).
Proof.
  split.
  - intros Ht. unfold format_time. by rewrite decide_True.
  - apply format_time_ok.
Qed.

Lemma format_time_fields_witness :
  (0 ≤ Q2Qc (36615 # 10))%Qc
  ∧ (∃ h m s : Z,
       format_time (Q2Qc (36615 # 10))
       = Returns (format_02d h +:+ ":" +:+ format_02d m +:+ ":"
                  +:+ format_02d s)%string
       ∧ (0 ≤ h ∧ 0 ≤ m < 60 ∧ 0 ≤ s < 60)%Z
       ∧ (h * 3600 + m * 60 + s = 3661)%Z)
  ∧ (Q2Qc (-1 # 2) < 0)%Qc
  ∧ format_time (Q2Qc (-1 # 2)) = Raises (ValueError "Time must be positive.").
Proof.
  assert (0 ≤ Q2Qc (36615 # 10))%Qc as Hpos by qc_order.
  assert (Q2Qc (-1 # 2) < 0)%Qc as Hneg by qc_order.
  split_and!; [done| |done|].
  - exact (proj2 (format_time_fields (Q2Qc (36615 # 10))) Hpos).
  - exact (proj1 (format_time_fields (Q2Qc (-1 # 2))) Hneg).
Defined.

(** One hour, one minute and 1.5 seconds. *)
Example format_time_example :
  format_time (Q2Qc (36615 # 10)) = Returns "01:01:01"%string.
Proof. vm_compute. reflexivity. Qed.

Lemma format_02d_width (n : Z) :
  (0 ≤ n < 100)%Z → String.length (format_02d n) = 2.
Proof.
  intros Hn. rewrite <- (Z2Nat.id n) by lia.
  assert (Z.to_nat n < 100)%nat as Hk by lia. clear Hn.
  generalize dependent (Z.to_nat n). intros k Hk.
  do 100 (destruct k as [|k]; [vm_compute; reflexivity|]). lia.
Qed.

Lemma length_append (a b : string) :
  String.length (a +:+ b) = String.length a + String.length b.
Proof.
  induction a as [|c a IH]; [done|].
  change (S (String.length (a +:+ b))
          = S (String.length a) + String.length b).
  by rewrite IH.
Qed.

(** X4. For a time of at least zero and less than 100 hours the string
    [format_time] returns has exactly eight characters. *)
Theorem format_time_width (t : Qc) :
  (0 ≤ t)%Qc → (t < Qc_of_Z 360000)%Qc →
  ∃ str, format_time t = Returns str ∧ String.length str = 8.
Proof.
  intros Ht Hlt.
  destruct (format_time_ok t Ht)
    as (h & m & s & Hrun & (Hh & Hm & Hs) & Hsum).
  assert (Qfloor (this t) < 360000)%Z as Hfl.
  { destruct (Qfloor_bounds t) as [Hlo _].
    apply Z2Qc_inj_lt. eapply Qcle_lt_trans; [exact Hlo|exact Hlt]. }
  eexists. split; [exact Hrun|].
  rewrite !length_append, !format_02d_width by lia. reflexivity.
Qed.

Lemma format_time_width_witness :
  (0 ≤ Q2Qc (36615 # 10))%Qc ∧ (Q2Qc (36615 # 10) < Qc_of_Z 360000)%Qc
  ∧ ∃ str, format_time (Q2Qc (36615 # 10)) = Returns str
           ∧ String.length str = 8.
Proof.
  assert (0 ≤ Q2Qc (36615 # 10))%Qc as Hpos by qc_order.
  assert (Q2Qc (36615 # 10) < Qc_of_Z 360000)%Qc as Hlt by qc_order.
  split_and!; [done..|].
  exact (format_time_width (Q2Qc (36615 # 10)) Hpos Hlt).
Defined.

(** ** [print_with_overwrite] *)

Lemma split_by_cons sep s : ∃ h t, split_by sep s = h :: t.
Proof.
  destruct s as [|c s]; cbn; [eauto|].
  destruct (sep c); [eauto|]. destruct (split_by sep s); eauto.
Qed.

Lemma split_by_String sep c s :
  split_by sep (String c s)
  = if sep c then EmptyString :: split_by sep s
    else match split_by sep s with
         | h :: t => String c h :: t
         | [] => [String c EmptyString]
         end.
Proof. reflexivity. Qed.

Lemma split_newline_length s :
  length (split_by (Ascii.eqb newline) s) = S (count_char newline s).
Proof.
  induction s as [|c s IH]; [done|].
  cbn [split_by count_char]. rewrite (Ascii.eqb_sym c newline).
  destruct (Ascii.eqb newline c); cbn [length]; [by rewrite IH|].
  destruct (split_by_cons (Ascii.eqb newline) s) as (h & t & E).
  rewrite E in *. exact IH.
Qed.

(** X5. [print_with_overwrite] writes the text itself, preceded by one
    erase-line and cursor-up sequence for each newline of the text and
    followed by a carriage return.  The lines padded to the console width
    are computed but not written: the console width has no effect on the
    output. *)
Theorem print_with_overwrite_text (console_width : nat) (s : string) :
  (print_with_overwrite console_width s).1
  = (str_repeat (ERASE +:+ UP_ONE) (count_char newline s) +:+ s
     +:+ String "013"%char EmptyString)%string
  ∧ (∀ other_width,
       (print_with_overwrite other_width s).1
       = (print_with_overwrite console_width s).1).
Proof.
  unfold print_with_overwrite. cbn [fst].
  rewrite split_newline_length. cbn [Nat.sub]. by rewrite Nat.sub_0_r.
Qed.

(** ** [strip] and [split] *)

Lemma py_split_lstrip s : py_split (lstrip s) = py_split s.
Proof.
  induction s as [|c s IH]; [done|]. cbn [lstrip].
  destruct (is_space c) eqn:E; [|done].
  rewrite IH. unfold py_split. cbn [split_by]. by rewrite E.
Qed.

Lemma split_by_rstrip s :
  ∀ h1 t1 h2 t2,
    split_by is_space (rstrip s) = h1 :: t1 →
    split_by is_space s = h2 :: t2 →
    h1 = h2
    ∧ List.filter (λ w, negb (String.eqb w "")) t1
      = List.filter (λ w, negb (String.eqb w "")) t2.
Proof.
  induction s as [|c s IH]; intros h1 t1 h2 t2.
  - cbn. by intros [= <- <-] [= <- <-].
  - destruct (split_by_cons is_space s) as (h & t & Es).
    destruct (split_by_cons is_space (rstrip s)) as (h' & t' & Er).
    destruct (IH _ _ _ _ Er Es) as [-> Hf].
    cbn [rstrip]. rewrite (split_by_String _ c s), Es.
    destruct (rstrip s) as [|a r] eqn:Ers.
    + cbn in Er. injection Er as <- <-.
      destruct (is_space c) eqn:E.
      * cbn. intros [= <- <-] [= <- <-]. cbn. by rewrite <- Hf.
      * cbn. rewrite E. intros [= <- <-] [= <- <-]. by rewrite <- Hf.
    + rewrite (split_by_String _ c (String a r)), Er.
      destruct (is_space c) eqn:E.
      * intros [= <- <-] [= <- <-]. cbn. by rewrite Hf.
      * by intros [= <- <-] [= <- <-].
Qed.

Lemma py_split_rstrip s : py_split (rstrip s) = py_split s.
Proof.
  destruct (split_by_cons is_space s) as (h & t & Es).
  destruct (split_by_cons is_space (rstrip s)) as (h' & t' & Er).
  destruct (split_by_rstrip s _ _ _ _ Er Es) as [-> Hf].
  unfold py_split. rewrite Es, Er. cbn. by rewrite Hf.
Qed.

(** X6. Splitting a stripped line gives the tokens of the line itself:
    the [strip()] before [split()] in [get_test_info] (and [get_paths])
    changes nothing. *)
Theorem split_after_strip (line : string) :
  py_split (strip line) = py_split line.
Proof. unfold strip. by rewrite py_split_rstrip, py_split_lstrip. Qed.

(** ** [get_test_info] *)

Lemma last_two_Returns chunks a b :
  last_two chunks = Returns (a, b) ↔ ∃ pre, chunks = pre ++ [a; b].
Proof.
  unfold last_two. split.
  - destruct (reverse chunks) as [|l [|sl rest]] eqn:E; try done.
    intros [= <- <-]. exists (reverse rest).
    rewrite <- (reverse_involutive chunks), E.
    rewrite !reverse_cons, <- app_assoc. done.
  - intros [pre ->]. by rewrite reverse_app.
Qed.

Lemma last_two_Raises chunks :
  length chunks < 2 ↔ last_two chunks = Raises IndexError.
Proof.
  unfold last_two. rewrite <- (length_reverse chunks).
  destruct (reverse chunks) as [|l [|sl rest]]; cbn; split; (done || lia).
Qed.

Lemma last_two_cases chunks :
  (2 ≤ length chunks ∧ ∃ p, last_two chunks = Returns p)
  ∨ (length chunks < 2 ∧ last_two chunks = Raises IndexError).
Proof.
  unfold last_two. rewrite <- (length_reverse chunks).
  destruct (reverse chunks) as [|l [|sl rest]]; cbn.
  - right. split; [lia|done].
  - right. split; [lia|done].
  - left. split; [lia|eauto].
Qed.

Lemma get_test_info_loop_ok idx lines paths :
  Forall (λ line, 2 ≤ length (py_split line)) lines →
  ∃ ps, length ps = length lines
        ∧ get_test_info_loop idx lines paths
          = Returns (map_seq idx ps ∪ paths)
        ∧ ∀ i line, lines !! i = Some line →
            ∃ p, ps !! i = Some p ∧ last_two (py_split line) = Returns p.
Proof.
  intros Hall. revert idx paths.
  induction Hall as [|line lines Hline _ IH]; intros idx paths.
  - exists []. cbn. split_and!; [done| |done].
    by rewrite (left_id_L ∅ (∪)).
  - cbn [get_test_info_loop]. unfold strip.
    rewrite py_split_rstrip, py_split_lstrip.
    destruct (last_two_cases (py_split line)) as [[_ [p Hp]]|[Hlt _]]; [|lia].
    rewrite Hp. cbn [and_then].
    destruct (IH (S idx) (<[idx:=p]> paths)) as (ps & Hlen & Hrun & Hps).
    exists (p :: ps). split_and!.
    + cbn. by rewrite Hlen.
    + rewrite Hrun. f_equal. cbn [map_seq].
      rewrite <- insert_union_l, <- insert_union_r; [done|].
      apply lookup_map_seq_None. lia.
    + intros [|i] l; cbn; [intros [= <-]; eauto|apply Hps].
Qed.

Lemma get_test_info_loop_fail idx lines paths :
  Exists (λ line, length (py_split line) < 2) lines →
  get_test_info_loop idx lines paths = Raises IndexError.
Proof.
  intros Hex. revert idx paths.
  induction Hex as [line lines Hline|line lines _ IH]; intros idx paths;
    cbn [get_test_info_loop]; unfold strip;
    rewrite py_split_rstrip, py_split_lstrip.
  - apply last_two_Raises in Hline. by rewrite Hline.
  - destruct (last_two_cases (py_split line)) as [[_ [p Hp]]|[_ Hp]];
      rewrite Hp; cbn; [apply IH|done].
Qed.

Lemma get_test_info_ok (d : disk) (test_file content : string) :
  d !! test_file = Some content →
  Forall (λ line, 2 ≤ length (py_split line)) (readlines content) →
  ∃ paths,
    get_test_info d test_file = Returns (paths, length (readlines content))
    ∧ (∀ i, is_Some (paths !! i) ↔ i < length (readlines content))
    ∧ (∀ i line, readlines content !! i = Some line →
         ∃ pre a b, py_split line = pre ++ [a; b]
                    ∧ paths !! i = Some (a, b)).
Proof.
  intros Hf Hall. unfold get_test_info, read_file. rewrite Hf.
  cbn [and_then]. set (lines := readlines content) in *.
  destruct (get_test_info_loop_ok 0 lines ∅ Hall)
    as (ps & Hlen & Hrun & Hps).
  rewrite Hrun. cbn [and_then]. rewrite (right_id_L ∅ (∪)).
  rewrite PipelineFacts.map_seq_size, Hlen.
  eexists. split; [reflexivity|]. split.
  - intros i. rewrite lookup_map_seq_0, <- Hlen.
    apply lookup_lt_is_Some.
  - intros i line Hline. destruct (Hps i line Hline) as ([a b] & Hp & Hl).
    apply last_two_Returns in Hl as [pre Hpre].
    exists pre, a, b. by rewrite lookup_map_seq_0.
Qed.

(** X7. On a readable file whose every line has at least two tokens,
    [get_test_info] returns the number of lines and a dict that maps the
    position of each line to its last two tokens.  If some line has fewer
    than two tokens (a blank line, for one) it raises [IndexError]; a
    missing file raises [FileNotFoundError]. *)
Theorem get_test_info_lines (d : disk) (test_file : string) :
  (d !! test_file = None →
   get_test_info d test_file = Raises (FileNotFoundError test_file))
  ∧ (∀ content,
       d !! test_file = Some content →
       let lines := readlines content in
       (Forall (λ line, 2 ≤ length (py_split line)) lines →
        ∃ paths,
          get_test_info d test_file = Returns (paths, length lines)
          ∧ (∀ i, is_Some (paths !! i) ↔ i < length lines)
          ∧ (∀ i line, lines !! i = Some line →
               ∃ pre a b, py_split line = pre ++ [a; b]
                          ∧ paths !! i = Some (a, b)))
       ∧ (¬ Forall (λ line, 2 ≤ length (py_split line)) lines →
          get_test_info d test_file = Raises IndexError)).
Proof.
  split.
  - unfold get_test_info, read_file. by intros ->.
  - intros content Hf lines. split.
    + intros Hall. by apply get_test_info_ok.
    + intros Hnot. unfold get_test_info, read_file. rewrite Hf.
      cbn [and_then]. apply not_Forall_Exists in Hnot; [|apply _].
      rewrite get_test_info_loop_fail; [done|].
      eapply Exists_impl; [exact Hnot|]. cbn. intros line Hl. lia.
Qed.

Lemma get_test_info_lines_witness :
  let nl := String newline EmptyString in
  let content := ("1 r1 l1" +:+ nl +:+ "0 r1 l2" +:+ nl)%string in
  let d : disk := {[ "t.types"%string := content ]} in
  d !! "t.types"%string = Some content
  ∧ Forall (λ line, 2 ≤ length (py_split line)) (readlines content)
  ∧ ∃ paths,
      get_test_info d "t.types" = Returns (paths, length (readlines content))
      ∧ (∀ i, is_Some (paths !! i) ↔ i < length (readlines content))
      ∧ (∀ i line, readlines content !! i = Some line →
           ∃ pre a b, py_split line = pre ++ [a; b]
                      ∧ paths !! i = Some (a, b)).
Proof.
  intros nl content d.
  assert (d !! "t.types"%string = Some content) as Hf by reflexivity.
  assert (Forall (λ line, 2 ≤ length (py_split line)) (readlines content))
    as Hall.
  { vm_compute. repeat constructor. }
  split_and!; [done..|].
  exact (proj1 (proj2 (get_test_info_lines d "t.types") content Hf) Hall).
Defined.

(** Two lines; and a blank line in the middle, which makes it fail. *)
Example get_test_info_example :
  let nl := String newline EmptyString in
  get_test_info {[ "t.types"%string
                   := ("1 r1 l1" +:+ nl +:+ "0 r1 l2" +:+ nl)%string ]}
    "t.types"
  = Returns (<[1 := ("r1"%string, "l2"%string)]>
               {[ 0 := ("r1"%string, "l1"%string) ]}, 2)
  ∧ get_test_info {[ "t.types"%string
                     := ("1 r1 l1" +:+ nl +:+ nl +:+ "0 r1 l2")%string ]}
      "t.types"
    = Raises IndexError.
Proof. split; vm_compute; reflexivity. Qed.

(** ** [get_paths] on the text of the file *)




(** Where the two differ.  A label that is no integer stops [get_paths]
    with [ValueError] while [get_test_info] returns; on a line with a fourth
    token [get_paths] takes the second and third token, [get_test_info] the
    last two; a line with two tokens is enough for [get_test_info] only. *)
Example get_paths_and_get_test_info_differ_example :
  let file (line : string) : disk :=
    {[ "t.types"%string := (line +:+ String newline EmptyString)%string ]} in
  TypesFile.get_paths (file "abc r1 l1") "t.types"
  = Raises (ValueError "invalid literal for int() with base 10: 'abc'")
  ∧ get_test_info (file "abc r1 l1") "t.types"
    = Returns ({[ 0%nat := ("r1"%string, "l1"%string) ]}, 1%nat)
  ∧ TypesFile.get_paths (file "1 r1 l1 x") "t.types"
    = Returns {[ 0%nat := (1%Z, "r1"%string, "l1"%string) ]}
  ∧ (get_test_info (file "1 r1 l1 x") "t.types")
    = Returns ({[ 0%nat := ("l1"%string, "x"%string) ]}, 1%nat)
  ∧ TypesFile.get_paths (file "r1 l1") "t.types"
    = Raises (ValueError "invalid literal for int() with base 10: 'r1'")
  ∧ TypesFile.get_paths (file "1 r1") "t.types" = Raises IndexError.
Proof. split_and!; vm_compute; reflexivity. Qed.

End UtilitiesFacts.

(** * More on [process_batch] and the compiled autoencoder *)

Module ModelMore.
Import Py Autoencoder GninaFunctions ModelSpec.
Local Set Warnings "-clear-no-such-hyp".

(** X15. A call of [process_batch] that does not raise appends its calls
    to the trace: first one [next_batch] of the batch size, then one
    [forward] whose random rotation is the [train] flag, and no further
    call of either.  After these it calls [predict_on_batch] of the
    autoencoder exactly once when an autoencoder is given (with two inputs
    if it has a [frac] layer, with one otherwise) and never when none is
    given; it extracts labels exactly once when a labels tensor is given
    and never otherwise; it makes exactly one call of the model, the last of
    the trace: [train_on_batch] when [train] is set, [predict_on_batch]
    otherwise.  The value is the predictions without labels, the loss when
    training, labels and predictions otherwise. *)
Theorem process_batch_calls {L : Type} (batch_size : nat)
    (labels_tensor : option L) (train : bool)
    (autoencoder : option autoencoder_model) (tr : list call) :
  ¬ (train = true ∧ labels_tensor = None) →
  ∃ calls,
    (process_batch batch_size labels_tensor train autoencoder tr).2
    = tr ++ [NextBatch batch_size; Forward train] ++ calls
    ∧ count_calls is_next_batch calls = 0
    ∧ count_calls is_forward calls = 0
    ∧ count_calls is_autoencoder_predict calls
      = match autoencoder with Some _ => 1 | None => 0 end
    ∧ (∀ n, AutoencoderPredict n ∈ calls ↔
            ∃ ae, autoencoder = Some ae ∧ n = if has_frac ae then 2 else 1)
    ∧ count_calls is_extract_label calls
      = match labels_tensor with Some _ => 1 | None => 0 end
    ∧ count_calls is_model_train calls = (if train then 1 else 0)
    ∧ count_calls is_model_predict calls = (if train then 0 else 1)
    ∧ last calls = Some (if train then ModelTrain else ModelPredict)
    ∧ (process_batch batch_size labels_tensor train autoencoder tr).1
      = Ok (match labels_tensor with
            | None => Predictions
            | Some _ => if train then Loss else LabelsAndPredictions
            end).
Proof.
  intros Hok. unfold process_batch.
  assert (train && is_None labels_tensor = false) as ->.
  { destruct train, labels_tensor; try done. by destruct Hok. }
  destruct train, labels_tensor as [l|], autoencoder as [[frac]|];
    try (by destruct Hok);
    cbv [mbind M_bind mret M_ret do modify fst snd];
    rewrite <- ?app_assoc; cbn [app];
    (eexists; split; [reflexivity|]);
    (split_and!; try done; try set_solver).
Qed.

Lemma process_batch_calls_witness :
  ¬ (false = true ∧ (None : option unit) = None)
  ∧ ∃ calls,
      (process_batch (L := unit) 4 None false (Some {| has_frac := true |})
         []).2
      = [] ++ [NextBatch 4; Forward false] ++ calls
      ∧ count_calls is_autoencoder_predict calls = 1
      ∧ count_calls is_model_predict calls = 1
      ∧ count_calls is_model_train calls = 0
      ∧ (process_batch (L := unit) 4 None false (Some {| has_frac := true |})
           []).1
        = Ok Predictions.
Proof.
  assert (¬ (false = true ∧ (None : option unit) = None)) as Hok
    by (by intros [? _]).
  split; [exact Hok|].
  destruct (process_batch_calls (L := unit) 4 None false
              (Some {| has_frac := true |}) [] Hok)
    as (calls & Htr & _ & _ & Hae & _ & _ & Htrain & Hpred & _ & Hret).
  by exists calls.
Defined.

(** X16. The compiled autoencoder has the auxiliary input [frac] exactly
    when the configured loss is ['composite_mse']; then, and only then, it
    has an added loss and no per-output loss.  [process_batch] feeds the
    autoencoder as many inputs as the model was built with: the image
    alone, or the image and the constant 1 for [frac]. *)
Theorem autoencoder_inputs_agree {L : Type} (optimiser loss : string)
    (opt_args : list (string * Qc)) (batch_size : nat)
    (labels_tensor : option L) (train : bool) (tr : list call) :
  let m := init optimiser loss opt_args in
  (loss = "composite_mse"%string ↔ m_inputs m = ["input_image"; "frac"]%string)
  ∧ (loss ≠ "composite_mse"%string ↔ m_inputs m = ["input_image"%string])
  ∧ (loss = "composite_mse"%string ↔ m_losses m ≠ [])
  ∧ (loss = "composite_mse"%string ↔ c_loss (m_compile m) = None)
  ∧ (loss ≠ "composite_mse"%string →
     c_loss (m_compile m)
     = Some (<[ "reconstruction"%string := Some loss ]>
               {[ "encoding"%string := None ]}))
  ∧ m_outputs m = ["reconstruction"; "encoding"]%string
  ∧ (¬ (train = true ∧ labels_tensor = None) →
     AutoencoderPredict (length (m_inputs m))
     ∈ (process_batch batch_size labels_tensor train
          (Some (as_autoencoder m)) tr).2).
Proof.
  intros m. subst m. unfold init, as_autoencoder.
  destruct (String.eqb_spec loss "composite_mse") as [->|Hne]; cbn.
  - split_and!; try done.
    intros Hok. unfold process_batch.
    assert (train && is_None labels_tensor = false) as ->.
    { destruct train, labels_tensor; try done. by destruct Hok. }
    destruct train, labels_tensor;
      cbv [mbind M_bind mret M_ret do modify fst snd has_frac];
      rewrite <- ?app_assoc; set_solver.
  - split_and!; try done.
    intros Hok. unfold process_batch.
    assert (train && is_None labels_tensor = false) as ->.
    { destruct train, labels_tensor; try done. by destruct Hok. }
    destruct train, labels_tensor;
      cbv [mbind M_bind mret M_ret do modify fst snd has_frac];
      rewrite <- ?app_assoc; set_solver.
Qed.

Lemma autoencoder_inputs_agree_witness :
  ¬ (false = true ∧ (None : option unit) = None)
  ∧ AutoencoderPredict 2
    ∈ (process_batch (L := unit) 8 None false
         (Some (as_autoencoder (init "sgd" "composite_mse" []))) []).2.
Proof.
  assert (¬ (false = true ∧ (None : option unit) = None)) as Hok
    by (by intros [? _]).
  split; [exact Hok|].
  destruct (autoencoder_inputs_agree (L := unit) "sgd" "composite_mse" [] 8
              None false []) as (_ & _ & _ & _ & _ & _ & Hin).
  exact (Hin Hok).
Defined.

End ModelMore.

(** * More on the streaming encode pipeline *)

Module PipelineMore.
Local Set Warnings "-clear-no-such-hyp".
Import Py Pathlib Pipeline PipelineSpec GroupSpec PathlibFacts PipelineFacts.

(** X17. [get_paths] returns normally on every types file, grouped by
    receptor or not: the result maps each position to its line and has as
    many entries as the file has lines. *)
Theorem get_paths_total (types_file : list record) :
  ∃ paths,
    get_paths types_file = Ok paths
    ∧ size paths = length types_file
    ∧ (∀ i, paths !! i = types_file !! i).
Proof.
  exists (map_seq 0 types_file). split_and!.
  - apply get_paths_ok.
  - apply map_seq_size.
  - intros i. apply lookup_map_seq_0.
Qed.

Section Run.
Context {Enc : Type} (encoder : nat → nat → Enc).

(** X18. The two early failures leave the output untouched.  With batch
    size 0 the run raises [ZeroDivisionError], and on an empty types file
    (with a positive batch size) it raises [KeyError]; in both cases no
    directory has been made, no file written and no batch requested. *)
Theorem early_failures_write_nothing (batch_size : nat)
    (types_file : list record) (save_path : string) (w : @World Enc) :
  let run := calculate_encodings encoder batch_size types_file save_path w in
  (batch_size = 0 → run.1 = Raise ZeroDivisionError)
  ∧ (0 < batch_size → types_file = [] → run.1 = Raise (KeyError 0))
  ∧ (batch_size = 0 ∨ types_file = [] →
     fs run.2 = fs w ∧ written run.2 = written w
     ∧ requested run.2 = 0 ∧ predicted run.2 = predicted w).
Proof.
  intros run. subst run. unfold calculate_encodings.
  rewrite get_paths_ok.
  unfold mbind at 1 2 3. unfold M_bind at 1 2 3.
  unfold populate, modify, lift, floordiv. cbv beta iota zeta.
  rewrite map_seq_size.
  destruct (decide (batch_size = 0)) as [Hz|Hnz]; cbv beta iota zeta.
  - split_and!; [done|lia|done].
  - unfold mbind, M_bind, getitem. rewrite lookup_map_seq_0.
    split_and!; [done| |].
    + by intros _ ->.
    + by intros [?| ->].
Qed.

End Run.

Lemma early_failures_write_nothing_witness :
  let run :=
    calculate_encodings tag_encoder 0 (types_file ["A"; "B"]) "out"
      empty_world in
  0 = 0 ∧ run.1 = Raise ZeroDivisionError ∧ fs run.2 = fs empty_world.
Proof.
  intros run.
  destruct (early_failures_write_nothing tag_encoder 0
              (types_file ["A"; "B"]) "out" empty_world) as (Hz & _ & Hfs).
  split_and!; [done|by apply Hz|by apply Hfs; left].
Defined.

(** ** What a run writes *)

Section Writes.
Context {Enc : Type} (encoder : nat → nat → Enc).

Lemma msg_records_build (g : @group Enc) :
  msg_records (build_msg g.1 g.2) = group_records g.
Proof.
  unfold msg_records, build_msg, group_records. cbn. rewrite map_map.
  apply map_ext. by intros [[label lig] enc].
Qed.

Lemma msg_encodings_build (g : @group Enc) :
  msg_encodings (build_msg g.1 g.2) = map snd (group_items g).
Proof.
  unfold msg_encodings, build_msg, group_items. cbn. rewrite !map_map.
  apply map_ext. by intros [[label lig] enc].
Qed.

Lemma flat_map_map {A B C} (f : B → list C) (g : A → B) (l : list A) :
  flat_map f (map g l) = flat_map (λ x, f (g x)) l.
Proof. induction l as [|x l IH]; [done|]. cbn. by rewrite IH. Qed.

Lemma map_flat_map {A B C} (f : B → C) (g : A → list B) (l : list A) :
  map f (flat_map g l) = flat_map (λ x, map f (g x)) l.
Proof. induction l as [|x l IH]; [done|]. cbn. by rewrite map_app, IH. Qed.

(** X19. Whether or not the types file is grouped by receptor, a run on a
    non-empty file with a positive batch size loses no record in what it
    writes.  Read back from the messages written, in the order of the
    writes: the records [(label, receptor, ligand)] are the lines of the
    file in file order; the encodings are, line by line, row
    [g mod batch_size] of batch [g / batch_size] for line [g]; no message is
    without ligands; the receptors of the messages are those of the maximal
    runs of equal neighbouring receptors in the file; and there are at most
    as many messages as lines. *)
Theorem writes_cover_every_line (batch_size : nat) (types_file : list record)
    (save_path : string) (w : @World Enc) :
  types_file ≠ [] → 0 < batch_size →
  ∃ (w' : @World Enc),
    calculate_encodings encoder batch_size types_file save_path w
    = (Ok tt, w')
    ∧ let msgs := new_messages (length (written w)) w' in
      flat_map msg_records msgs = types_file
      ∧ flat_map msg_encodings msgs
        = imap (λ g _, encoder (g `div` batch_size) (g `mod` batch_size))
            types_file
      ∧ Forall (λ m, prot_ligand m ≠ []) msgs
      ∧ map prot_path msgs = runs (map receptor types_file)
      ∧ length msgs ≤ length types_file.
Proof.
  intros Hne Hbs.
  destruct (run_groups encoder batch_size types_file save_path w Hne Hbs)
    as (w' & gs & Hrun & -> & Hitems & Hnonempty & Hkeys).
  eexists. split; [exact Hrun|].
  unfold new_messages. cbn [written after_batches flush_all start_world].
  rewrite drop_app_length, map_map. cbn [to_file snd].
  assert (flat_map group_records gs = types_file) as Hrecs
    by (by rewrite group_records_items, Hitems, items_of_records).
  assert (length gs ≤ length (flat_map group_records gs)) as Hlen.
  { clear - Hnonempty.
    induction Hnonempty as [|[rec es] gs Hg _ IH]; [cbn; lia|].
    change (flat_map group_records ((rec, es) :: gs))
      with (group_records (rec, es) ++ flat_map group_records gs).
    rewrite length_app. unfold group_records at 1.
    rewrite length_map. cbn [snd length] in *.
    destruct es; [done|]. cbn [length]. lia. }
  cbv zeta. split_and!.
  - rewrite flat_map_map. etrans; [|exact Hrecs].
    apply flat_map_ext. intros g. apply msg_records_build.
  - rewrite flat_map_map.
    rewrite (flat_map_ext _ (λ g, map snd (group_items g)))
      by (intros g; apply msg_encodings_build).
    assert (flat_map (λ g : group, map snd (group_items g)) gs
            = map snd (items_of encoder batch_size types_file)) as ->
      by (rewrite <- Hitems; symmetry; apply map_flat_map).
    unfold items_of.
    apply list_eq. intros i.
    rewrite list_lookup_fmap, !list_lookup_imap.
    by destruct (types_file !! i).
  - apply Forall_forall. intros m Hm.
    apply list_elem_of_fmap in Hm as (g & -> & Hg).
    rewrite Forall_forall in Hnonempty. specialize (Hnonempty g Hg).
    unfold build_msg. cbn. by destruct (g.2).
  - rewrite map_map. cbn [build_msg prot_path]. by rewrite <- Hkeys.
  - rewrite length_map. by rewrite Hrecs in Hlen.
Qed.

End Writes.

Lemma writes_cover_every_line_witness :
  let lines := types_file ["A"; "B"; "A"] in
  lines ≠ [] ∧ 0 < 2
  ∧ ∃ (w' : @World (nat * nat)),
      calculate_encodings tag_encoder 2 lines "out" empty_world = (Ok tt, w')
      ∧ flat_map msg_records (new_messages 0 w') = lines
      ∧ map prot_path (new_messages 0 w') = ["A"; "B"; "A"].
Proof.
  intros lines.
  assert (lines ≠ []) as Hne by done.
  assert (0 < 2) as Hbs by lia.
  split_and!; [done..|].
  destruct (writes_cover_every_line tag_encoder 2 lines "out" empty_world
              Hne Hbs) as (w' & Hrun & Hrecs & _ & _ & Hkeys & _).
  by exists w'.
Defined.

(** ** Grouping does not depend on the batches *)

Section Outline.
Context {A B : Type} (f : A → B).

Lemma absorb_map (items : list (@item A)) fl cur encs :
  absorb (map (map_group f) fl, cur, map (map_entry f) encs)
    (map (map_item f) items)
  = let '(fl', cur', encs') := absorb (fl, cur, encs) items in
    (map (map_group f) fl', cur', map (map_entry f) encs').
Proof.
  revert fl cur encs.
  induction items as [|[[[label rec] lig] enc] items IH]; intros fl cur encs;
    [done|].
  cbn [map]. rewrite !absorb_cons. unfold map_item at 1.
  cbn [absorb_step fst snd].
  destruct (decide (rec ≠ cur)).
  - etrans; [|exact (IH (fl ++ [(cur, encs)]) rec [(label, lig, enc)])].
    by rewrite map_app.
  - etrans; [|exact (IH fl cur (encs ++ [(label, lig, enc)]))].
    by rewrite map_app.
Qed.

Lemma flushed_groups_map first (items : list (@item A)) :
  flushed_groups first (map (map_item f) items)
  = map (map_group f) (flushed_groups first items).
Proof.
  unfold flushed_groups.
  pose proof (absorb_map items [] first []) as Hmap. cbn [map] in Hmap.
  rewrite Hmap. destruct (absorb ([], first, []) items) as [[fl cur] encs].
  rewrite map_app, length_map.
  by destruct (decide (length encs ≠ 0)).
Qed.

Lemma outline_map_group (g : @group A) : outline (map_group f g) = outline g.
Proof.
  unfold outline, map_group. cbn. f_equal. rewrite map_map.
  apply map_ext. by intros [[label lig] enc].
Qed.

End Outline.

Lemma items_of_forget {A} (encoder : nat → nat → A) bs (lines : list record) :
  map (map_item (λ _, tt)) (items_of encoder bs lines)
  = map (λ r, (r, tt)) lines.
Proof.
  unfold items_of. apply list_eq. intros i.
  rewrite !list_lookup_fmap, list_lookup_imap. by destruct (lines !! i).
Qed.

(** X20. The grouping does not depend on how the file is cut into batches
    nor on the encoder: two runs on the same non-empty types file, with
    any two positive batch sizes and any two encoders, write groups with
    the same receptors, labels and ligands, in the same order. *)
Theorem grouping_independent_of_batches {A B : Type}
    (enc1 : nat → nat → A) (enc2 : nat → nat → B) (bs1 bs2 : nat)
    (types_file : list record) (save_path : string)
    (w1 : @World A) (w2 : @World B) :
  types_file ≠ [] → 0 < bs1 → 0 < bs2 →
  ∃ (w1' : @World A) (w2' : @World B) (gs1 : list (@group A))
    (gs2 : list (@group B)),
    calculate_encodings enc1 bs1 types_file save_path w1 = (Ok tt, w1')
    ∧ calculate_encodings enc2 bs2 types_file save_path w2 = (Ok tt, w2')
    ∧ written w1' = written w1 ++ map (to_file (encodings_dir_of save_path)) gs1
    ∧ written w2' = written w2 ++ map (to_file (encodings_dir_of save_path)) gs2
    ∧ map outline gs1 = map outline gs2
    ∧ map fst (map (to_file (encodings_dir_of save_path)) gs1)
      = map fst (map (to_file (encodings_dir_of save_path)) gs2).
Proof.
  intros Hne Hbs1 Hbs2. destruct types_file as [|first rest]; [done|].
  eexists _, _, _, _.
  split; [by apply calculate_encodings_run|].
  split; [by apply calculate_encodings_run|].
  split; [reflexivity|]. split; [reflexivity|].
  assert (∀ {C} (enc : nat → nat → C) bs,
            map outline (flushed_groups (receptor first)
                           (items_of enc bs (first :: rest)))
            = map outline (flushed_groups (receptor first)
                             (map (λ r, (r, tt)) (first :: rest))))
    as Hcanon.
  { intros C enc bs. rewrite <- (items_of_forget enc bs).
    rewrite flushed_groups_map, map_map. apply map_ext. intros g.
    by rewrite outline_map_group. }
  assert (map outline (flushed_groups (receptor first)
                         (items_of enc1 bs1 (first :: rest)))
          = map outline (flushed_groups (receptor first)
                           (items_of enc2 bs2 (first :: rest)))) as Hout
    by (by rewrite !Hcanon).
  split; [exact Hout|].
  rewrite !map_map.
  apply (f_equal (map (λ o : string * list (Z * string),
                         encodings_dir_of save_path ++ [bin_name o.1])))
    in Hout.
  by rewrite !map_map in Hout.
Qed.

Lemma grouping_independent_of_batches_witness :
  let lines := types_file ["A"; "A"; "A"; "B"; "B"; "C"] in
  lines ≠ [] ∧ 0 < 2 ∧ 0 < 5
  ∧ ∃ (w1' w2' : @World (nat * nat)) (gs1 gs2 : list (@group (nat * nat))),
      calculate_encodings tag_encoder 2 lines "out" empty_world = (Ok tt, w1')
      ∧ calculate_encodings tag_encoder 5 lines "out" empty_world
        = (Ok tt, w2')
      ∧ written w1'
        = written empty_world ++ map (to_file (encodings_dir_of "out")) gs1
      ∧ written w2'
        = written empty_world ++ map (to_file (encodings_dir_of "out")) gs2
      ∧ map outline gs1 = map outline gs2
      ∧ map fst (map (to_file (encodings_dir_of "out")) gs1)
        = map fst (map (to_file (encodings_dir_of "out")) gs2).
Proof.
  intros lines.
  assert (lines ≠ []) as Hne by (intros Hnil; discriminate Hnil).
  assert (0 < 2) as H2 by lia. assert (0 < 5) as H5 by lia.
  split; [exact Hne|]. split; [exact H2|]. split; [exact H5|].
  exact (grouping_independent_of_batches tag_encoder tag_encoder 2 5 lines
           "out" empty_world empty_world Hne H2 H5).
Defined.

(** ** The files a run leaves *)

Section Files.
Context {Enc : Type}.
Implicit Types (ws : list (Path * @protein Enc)) (f : @FS Enc).

Lemma FS_eq f g : dirs f = dirs g → files f = files g → f = g.
Proof. destruct f, g. cbn. by intros -> ->. Qed.

Lemma write_all_snoc ws pm f :
  write_all (ws ++ [pm]) f = write_fs pm.1 pm.2 (write_all ws f).
Proof. unfold write_all. by rewrite foldl_app. Qed.

(** The files after a sequence of writes: for each path the last write
    wins, and the other files are as before. *)
Lemma write_all_files ws f :
  files (write_all ws f) = list_to_map (reverse ws) ∪ files f.
Proof.
  induction ws as [|[p m] ws IH] using rev_ind.
  - cbn. by rewrite (left_id_L ∅ (∪)).
  - rewrite write_all_snoc, reverse_snoc. cbn [write_fs files fst snd].
    rewrite IH. cbn [list_to_map foldr]. by rewrite insert_union_l.
Qed.

Lemma write_all_lookup_other ws f p :
  p ∉ map fst ws → files (write_all ws f) !! p = files f !! p.
Proof.
  intros Hp. rewrite write_all_files. apply lookup_union_r.
  apply not_elem_of_list_to_map_1.
  by rewrite fmap_reverse, elem_of_reverse.
Qed.

Lemma write_all_lookup_written ws f p m :
  NoDup (map fst ws) → (p, m) ∈ ws → files (write_all ws f) !! p = Some m.
Proof.
  intros Hnd Hin. rewrite write_all_files. apply lookup_union_Some_l.
  apply elem_of_list_to_map_1.
  - by rewrite fmap_reverse, reverse_Permutation.
  - by apply elem_of_reverse.
Qed.

Lemma write_all_dom ws f :
  dom (files (write_all ws f)) = list_to_set (map fst ws) ∪ dom (files f).
Proof.
  rewrite write_all_files, dom_union_L, dom_list_to_map_L.
  f_equal. apply set_eq. intros p.
  by rewrite !elem_of_list_to_set, fmap_reverse, elem_of_reverse.
Qed.

Lemma write_all_idemp ws f : write_all ws (write_all ws f) = write_all ws f.
Proof.
  apply FS_eq; [by rewrite !write_all_dirs|].
  rewrite !write_all_files.
  by rewrite (assoc_L (∪)), (idemp_L (∪)).
Qed.

Lemma write_all_mkdir ws p f :
  write_all ws (mkdir_fs p f) = mkdir_fs p (write_all ws f).
Proof.
  apply FS_eq.
  - by rewrite write_all_dirs; cbn; rewrite write_all_dirs.
  - by rewrite write_all_files; cbn; rewrite write_all_files.
Qed.

Lemma mkdir_fs_idemp p f : mkdir_fs p (mkdir_fs p f) = mkdir_fs p f.
Proof. apply FS_eq; cbn; [|done]. by rewrite (assoc_L (∪)), (idemp_L (∪)). Qed.

Lemma to_file_paths dir (gs : list (@group Enc)) :
  map fst (map (to_file dir) gs)
  = map (λ n, dir ++ [n]) (map bin_name (map fst gs)).
Proof. rewrite !map_map. by apply map_ext. Qed.

Lemma to_file_paths_NoDup dir (gs : list (@group Enc)) :
  NoDup (map bin_name (map fst gs)) → NoDup (map fst (map (to_file dir) gs)).
Proof.
  intros Hnd. rewrite to_file_paths.
  assert (Inj (=) (=) (λ n : string, dir ++ [n])) as Hinj.
  { intros n1 n2 Heq. apply app_inv_head in Heq. by injection Heq. }
  by apply (NoDup_fmap_2 (λ n : string, dir ++ [n])).
Qed.

End Files.

Lemma elem_of_runs x l : x ∈ runs l ↔ x ∈ l.
Proof.
  induction l as [|x0 [|y r] IH]; [done|done|].
  rewrite runs_cons_cons. destruct (decide (y = x0)) as [->|Hne].
  - rewrite IH. set_solver.
  - rewrite elem_of_cons, IH. set_solver.
Qed.

Lemma NoDup_runs_contiguous l : NoDup (runs l) → contiguous l.
Proof.
  induction l as [|x [|y r] IH]; intros Hnd.
  - intros i j k a b _ Hi. by rewrite lookup_nil in Hi.
  - apply contiguous_cons. split; [right; set_solver|].
    intros i j k a b _ Hi. by rewrite lookup_nil in Hi.
  - rewrite runs_cons_cons in Hnd. apply contiguous_cons.
    destruct (decide (y = x)) as [->|Hne].
    + split; [by left|by apply IH].
    + apply NoDup_cons in Hnd as [Hx Hnd]. split; [|by apply IH].
      right. by rewrite <- elem_of_runs.
Qed.

Lemma not_NoDup_repeats (l : list string) :
  ¬ NoDup l → ∃ i j x, i < j ∧ l !! i = Some x ∧ l !! j = Some x.
Proof.
  induction l as [|x l IH]; intros Hnd.
  - destruct Hnd. constructor.
  - destruct (decide (x ∈ l)) as [Hin|Hout].
    + apply list_elem_of_lookup in Hin as [j Hj].
      exists 0, (S j), x. split_and!; [lia|done|done].
    + destruct IH as (i & j & y & Hij & Hi & Hj).
      { intros Hl. apply Hnd. by constructor. }
      exists (S i), (S j), y. split_and!; [lia|done|done].
Qed.

Lemma contiguous_NoDup_runs l : contiguous l → NoDup (runs l).
Proof. intros Hc. rewrite runs_first_seen by done. apply first_seen_NoDup. Qed.

Section Files_of_a_run.
Context {Enc : Type} (encoder : nat → nat → Enc).

(** X21. When the receptors of the runs of the types file get pairwise
    different file names, the run leaves one file per written group: the
    file [<stem>.bin] of each group holds exactly the message built from
    that group's entries.  In any case a file at a path the run did not
    write is as it was before, and the only directories added are the
    encodings directory and its parents. *)
Theorem one_file_per_group (batch_size : nat) (types_file : list record)
    (save_path : string) (w : @World Enc) :
  types_file ≠ [] → 0 < batch_size →
  ∃ (w' : @World Enc) (gs : list (@group Enc)),
    calculate_encodings encoder batch_size types_file save_path w
    = (Ok tt, w')
    ∧ written w' = written w ++ map (to_file (encodings_dir_of save_path)) gs
    ∧ (NoDup (map bin_name (runs (map receptor types_file))) →
       ∀ g, g ∈ gs →
         files (fs w') !! (encodings_dir_of save_path ++ [bin_name g.1])
         = Some (build_msg g.1 g.2))
    ∧ (∀ p, p ∉ map fst (map (to_file (encodings_dir_of save_path)) gs) →
         files (fs w') !! p = files (fs w) !! p)
    ∧ dirs (fs w')
      = list_to_set (with_parents (encodings_dir_of save_path)) ∪ dirs (fs w).
Proof.
  intros Hne Hbs.
  destruct (run_groups encoder batch_size types_file save_path w Hne Hbs)
    as (w' & gs & Hrun & -> & Hitems & Hnonempty & Hkeys).
  eexists _, gs. split; [exact Hrun|]. split; [done|].
  cbn [fs after_batches flush_all start_world]. split_and!.
  - intros Hnd g Hg. rewrite <- Hkeys in Hnd.
    apply write_all_lookup_written; [by apply to_file_paths_NoDup|].
    by apply (list_elem_of_fmap_2 (to_file (encodings_dir_of save_path))).
  - intros p Hp. by rewrite write_all_lookup_other.
  - by rewrite write_all_dirs.
Qed.

(** X22. Running again over the output of a run adds nothing: a second
    run on the same types file and save path, with any batch size and any
    encoder, leaves the same directories and the same set of files; and
    when it uses the same batch size and the same encoder, it writes the
    same messages to the same paths and leaves the file system exactly as
    the first run left it. *)
Theorem rerun_adds_nothing (encoder2 : nat → nat → Enc)
    (bs1 bs2 : nat) (types_file : list record) (save_path : string)
    (w : @World Enc) :
  types_file ≠ [] → 0 < bs1 → 0 < bs2 →
  ∃ (w1 w2 w2' : @World Enc),
    calculate_encodings encoder bs1 types_file save_path w = (Ok tt, w1)
    ∧ calculate_encodings encoder2 bs2 types_file save_path w1 = (Ok tt, w2)
    ∧ calculate_encodings encoder bs1 types_file save_path w1 = (Ok tt, w2')
    ∧ dirs (fs w2) = dirs (fs w1)
    ∧ dom (files (fs w2)) = dom (files (fs w1))
    ∧ fs w2' = fs w1
    ∧ drop (length (written w1)) (written w2')
      = drop (length (written w)) (written w1).
Proof.
  intros Hne Hbs1 Hbs2. destruct types_file as [|first rest]; [done|].
  eexists _, _, _.
  split; [by apply calculate_encodings_run|].
  split; [by apply calculate_encodings_run|].
  split; [by apply calculate_encodings_run|].
  cbn [fs written after_batches flush_all start_world].
  set (dir := encodings_dir_of save_path).
  set (gs1 := flushed_groups (receptor first)
                (items_of encoder bs1 (first :: rest))).
  set (gs2 := flushed_groups (receptor first)
                (items_of encoder2 bs2 (first :: rest))).
  assert (map fst (map (to_file dir) gs2) = map fst (map (to_file dir) gs1))
    as Hpaths.
  { rewrite !to_file_paths. do 2 f_equal. subst gs1 gs2.
    pose proof (flushed_groups_head (items_of encoder bs1 (first :: rest))
                  (receptor first) eq_refl) as (_ & _ & ->).
    pose proof (flushed_groups_head (items_of encoder2 bs2 (first :: rest))
                  (receptor first) eq_refl) as (_ & _ & ->).
    f_equal. rewrite <- !(map_map fst receptor), !items_of_records. done. }
  split_and!.
  - repeat first [rewrite write_all_dirs | progress cbn [dirs mkdir_fs]].
    by rewrite (assoc_L (∪)), (idemp_L (∪)).
  - repeat first [rewrite write_all_dom | progress cbn [files mkdir_fs]].
    rewrite Hpaths.
    by rewrite (assoc_L (∪)), (idemp_L (∪)).
  - by rewrite write_all_mkdir, write_all_idemp, <- write_all_mkdir,
      mkdir_fs_idemp.
  - by rewrite !drop_app_length.
Qed.

(** X24. Each receptor is written once exactly when the types file is
    grouped by receptor: the receptors of the written groups are pairwise
    different if and only if the receptors of the file are contiguous.
    So on every file that is not grouped, two of the writes go to the
    same path and the later one replaces the earlier. *)
Theorem written_once_iff_grouped (batch_size : nat)
    (types_file : list record) (save_path : string) (w : @World Enc) :
  types_file ≠ [] → 0 < batch_size →
  ∃ (w' : @World Enc) (gs : list (@group Enc)),
    calculate_encodings encoder batch_size types_file save_path w
    = (Ok tt, w')
    ∧ written w' = written w ++ map (to_file (encodings_dir_of save_path)) gs
    ∧ (NoDup (map fst gs) ↔ contiguous (map receptor types_file))
    ∧ (¬ contiguous (map receptor types_file) →
       ∃ i j g1 g2, i < j ∧ gs !! i = Some g1 ∧ gs !! j = Some g2
         ∧ (to_file (encodings_dir_of save_path) g1).1
           = (to_file (encodings_dir_of save_path) g2).1).
Proof.
  intros Hne Hbs.
  destruct (run_groups encoder batch_size types_file save_path w Hne Hbs)
    as (w' & gs & Hrun & -> & Hitems & Hnonempty & Hkeys).
  eexists _, gs. split; [exact Hrun|]. split; [done|].
  assert (NoDup (map fst gs) ↔ contiguous (map receptor types_file)) as Hiff.
  { rewrite Hkeys. split; [apply NoDup_runs_contiguous|].
    apply contiguous_NoDup_runs. }
  split; [exact Hiff|].
  intros Hnc. rewrite <- Hiff in Hnc.
  destruct (not_NoDup_repeats _ Hnc) as (i & j & x & Hij & Hi & Hj).
  apply list_lookup_fmap_Some in Hi as (g1 & Hi & Ei).
  apply list_lookup_fmap_Some in Hj as (g2 & Hj & Ej).
  exists i, j, g1, g2. split_and!; [done..|].
  cbn [to_file fst]. by rewrite <- Hi, <- Hj.
Qed.

End Files_of_a_run.

Lemma one_file_per_group_witness :
  let lines := types_file ["A"; "B"; "B"] in
  lines ≠ [] ∧ 0 < 2
  ∧ ∃ (w' : @World (nat * nat)) (gs : list (@group (nat * nat))),
      calculate_encodings tag_encoder 2 lines "out" empty_world = (Ok tt, w')
      ∧ written w' = map (to_file (encodings_dir_of "out")) gs
      ∧ (∀ g, g ∈ gs →
           files (fs w') !! (encodings_dir_of "out" ++ [bin_name g.1])
           = Some (build_msg g.1 g.2)).
Proof.
  intros lines.
  assert (lines ≠ []) as Hne by done.
  assert (0 < 2) as Hbs by lia.
  split_and!; [done..|].
  destruct (one_file_per_group tag_encoder 2 lines "out" empty_world Hne Hbs)
    as (w' & gs & Hrun & Hw & Hfiles & _ & _).
  exists w', gs. split_and!; [done..|].
  apply Hfiles. vm_compute. repeat constructor; set_solver.
Defined.

Lemma rerun_adds_nothing_witness :
  let lines := types_file ["A"; "B"; "B"] in
  lines ≠ [] ∧ 0 < 2 ∧ 0 < 3
  ∧ ∃ (w1 w2 w2' : @World (nat * nat)),
      calculate_encodings tag_encoder 2 lines "out" empty_world = (Ok tt, w1)
      ∧ calculate_encodings (λ _ _, (0, 0)) 3 lines "out" w1 = (Ok tt, w2)
      ∧ calculate_encodings tag_encoder 2 lines "out" w1 = (Ok tt, w2')
      ∧ dom (files (fs w2)) = dom (files (fs w1))
      ∧ fs w2' = fs w1.
Proof.
  intros lines.
  assert (lines ≠ []) as Hne by done.
  assert (0 < 2) as H2 by lia. assert (0 < 3) as H3 by lia.
  split_and!; [done..|].
  destruct (rerun_adds_nothing tag_encoder (λ _ _, (0, 0)) 2 3 lines "out"
              empty_world Hne H2 H3)
    as (w1 & w2 & w2' & Hr1 & Hr2 & Hr3 & _ & Hdom & Hfs & _).
  by exists w1, w2, w2'.
Defined.

Lemma written_once_iff_grouped_witness :
  let lines := types_file ["A"; "B"; "A"] in
  lines ≠ [] ∧ 0 < 2
  ∧ ∃ (w' : @World (nat * nat)) (gs : list (@group (nat * nat))),
      calculate_encodings tag_encoder 2 lines "out" empty_world = (Ok tt, w')
      ∧ written w' = map (to_file (encodings_dir_of "out")) gs
      ∧ ¬ NoDup (map fst gs).
Proof.
  intros lines.
  assert (lines ≠ []) as Hne by done.
  assert (0 < 2) as Hbs by lia.
  split_and!; [done..|].
  destruct (written_once_iff_grouped tag_encoder 2 lines "out" empty_world
              Hne Hbs) as (w' & gs & Hrun & Hw & Hiff & _).
  exists w', gs. split_and!; [done..|].
  rewrite Hiff. intros Hc. apply grouped_contiguous in Hc. discriminate Hc.
Defined.

(** ** File names *)

Lemma split_slash_nonempty s : split_slash s ≠ [].
Proof.
  induction s as [|a s IH]; cbn; [done|].
  destruct (Ascii.eqb a "/"%char); [done|]. by destruct (split_slash s).
Qed.

Lemma split_slash_app d b :
  split_slash (d +:+ String "/"%char b) = split_slash d ++ split_slash b.
Proof.
  induction d as [|a d IH]; [done|].
  change (split_slash (String a d +:+ String "/"%char b))
    with (if Ascii.eqb a "/"%char
          then EmptyString :: split_slash (d +:+ String "/"%char b)
          else match split_slash (d +:+ String "/"%char b) with
               | h :: t => String a h :: t
               | [] => [String a EmptyString]
               end).
  cbn [split_slash]. rewrite IH.
  destruct (Ascii.eqb a "/"%char); [done|].
  pose proof (split_slash_nonempty d) as Hd.
  by destruct (split_slash d).
Qed.

Lemma of_string_comps s :
  ∃ pre, of_string s = pre ++ List.filter is_component (split_slash s).
Proof.
  unfold of_string. destruct s as [|a s]; [by exists []|].
  destruct (Ascii.ascii_dec a "/"%char) as [->|Ha].
  - by exists ["/"%string].
  - exists []. destruct a as [[] [] [] [] [] [] [] []]; try done.
Qed.

Lemma no_slash_not_root b : no_slash b → String.eqb b "/" = false.
Proof.
  intros Hb. destruct (String.eqb_spec b "/") as [->|]; [|done].
  by destruct Hb.
Qed.

Lemma is_component_true b : b ≠ ""%string → b ≠ "."%string → is_component b = true.
Proof.
  intros H1 H2. unfold is_component.
  destruct (String.eqb_spec b ""); [done|].
  by destruct (String.eqb_spec b ".").
Qed.

(** The name of a path ending in the component [b] is [b]. *)
Lemma name_of_string_last d b :
  no_slash b → b ≠ ""%string → b ≠ "."%string →
  name (of_string (d +:+ String "/"%char b)) = b.
Proof.
  intros Hb H1 H2.
  destruct (of_string_comps (d +:+ String "/"%char b)) as [pre ->].
  rewrite split_slash_app, List.filter_app, (split_slash_id b) by done.
  cbn [List.filter]. rewrite is_component_true by done.
  unfold name. rewrite app_assoc, last_snoc.
  by rewrite no_slash_not_root.
Qed.

(** X23. The file a receptor's encodings go to is named after the final
    component of the receptor path only: the directories of the path play
    no part, so two receptors with the same file name in different
    directories are written to the same [.bin] file of the encodings
    directory. *)
Theorem bin_name_ignores_directory (d1 d2 b : string) (dir : Path) :
  no_slash b → b ≠ ""%string → b ≠ "."%string →
  bin_name (d1 +:+ "/" +:+ b) = bin_name b
  ∧ joinpath dir (bin_name (d1 +:+ "/" +:+ b))
    = joinpath dir (bin_name (d2 +:+ "/" +:+ b)).
Proof.
  intros Hb H1 H2.
  assert (∀ d, bin_name (d +:+ "/" +:+ b) = bin_name b) as Hd.
  { intros d. unfold bin_name, stem.
    change (d +:+ "/" +:+ b)%string with (d +:+ String "/"%char b)%string.
    rewrite name_of_string_last by done.
    rewrite (of_string_component b) by done.
    unfold name. cbn [last]. by rewrite no_slash_not_root. }
  split; [apply Hd|]. by rewrite !Hd.
Qed.

Lemma bin_name_ignores_directory_witness :
  no_slash "1abc.pdb" ∧ "1abc.pdb"%string ≠ ""%string
  ∧ "1abc.pdb"%string ≠ "."%string
  ∧ bin_name ("set1/rec" +:+ "/" +:+ "1abc.pdb") = bin_name "1abc.pdb"
  ∧ joinpath ["out"; "encodings"]
      (bin_name ("set1/rec" +:+ "/" +:+ "1abc.pdb"))
    = joinpath ["out"; "encodings"]
        (bin_name ("/data/set2" +:+ "/" +:+ "1abc.pdb")).
Proof.
  assert (no_slash "1abc.pdb") as Hb by (cbn; repeat split; done).
  assert ("1abc.pdb"%string ≠ ""%string) as H1 by done.
  assert ("1abc.pdb"%string ≠ "."%string) as H2 by done.
  split_and!; [done..| |];
    apply (bin_name_ignores_directory "set1/rec" "/data/set2" "1abc.pdb"
             ["out"; "encodings"] Hb H1 H2).
Defined.

Example same_name_receptors_example :
  map summary
    (written (calculate_encodings tag_encoder 2
                (imap (λ i rec, (1%Z, rec, pretty i))
                   ["set1/1abc.pdb"; "set2/1abc.pdb"])
                "out" empty_world).2)
  = [(["out"; "encodings"; "1abc.bin"], "set1/1abc.pdb", ["0"]);
     (["out"; "encodings"; "1abc.bin"], "set2/1abc.pdb", ["1"])].
Proof. vm_compute. reflexivity. Qed.

End PipelineMore.
